(** * viXTTS text/audio helpers: a shallow embedding and its properties

    The development follows [src/wrapper/helper.py] (the current helpers) and
    [src/helper.py] (the legacy helpers).  Python strings are sequences of
    Unicode code points, so a [str] is a list of code points; [len] is
    [length].  Everything that belongs to an external library (num2words,
    librosa, the XTTS engine, Unicode case mapping, IEEE floats) is a
    parameter of the section that uses it. *)

From Stdlib Require Import ZArith QArith Lia Bool List Ascii String DecimalNat.
From stdpp Require Import base list gmap strings.
Import ListNotations.

Local Open Scope Z_scope.

(** ** Python strings *)

Module PyStr.

(** A code point, and a Python [str]. *)
Definition char : Type := N.
Abbreviation str := (list char).

(** Decoding of the UTF-8 bytes of a literal of this file into code points:
    [u "và"] is the two code points U+0076 U+00E0. *)
Fixpoint utf8_decode (bs : list N) : str :=
  match bs with
  | [] => []
  | b :: r =>
      if (b <? 128)%N then b :: utf8_decode r
      else if (b <? 224)%N then
        match r with
        | b1 :: r1 => ((b - 192) * 64 + (b1 - 128))%N :: utf8_decode r1
        | _ => []
        end
      else if (b <? 240)%N then
        match r with
        | b1 :: b2 :: r2 =>
            ((b - 224) * 4096 + (b1 - 128) * 64 + (b2 - 128))%N :: utf8_decode r2
        | _ => []
        end
      else
        match r with
        | b1 :: b2 :: b3 :: r3 =>
            ((b - 240) * 262144 + (b1 - 128) * 4096 + (b2 - 128) * 64 + (b3 - 128))%N
              :: utf8_decode r3
        | _ => []
        end
  end.

Definition u (s : string) : str :=
  utf8_decode (map N_of_ascii (list_ascii_of_string s)).

(** [len(s)] as a Python int, for a string and for a list. *)
Definition len (s : str) : Z := Z.of_nat (length s).
Definition len_list {A} (xs : list A) : Z := Z.of_nat (length xs).

(** [c.isspace()], which is also what [\s], [str.strip()] and [str.split()]
    use on a [str]: the code points CPython lists in
    [_PyUnicode_IsWhitespace]. *)
Definition is_space (c : char) : bool :=
  ((9 <=? c) && (c <=? 13) || (28 <=? c) && (c <=? 32) || (c =? 133)
   || (c =? 160) || (c =? 5760) || (8192 <=? c) && (c <=? 8202)
   || (c =? 8232) || (c =? 8233) || (c =? 8239) || (c =? 8287)
   || (c =? 12288))%N.

(** [c in chars] for a one-character [c]. *)
Definition char_in (c : char) (chars : str) : bool :=
  existsb (N.eqb c) chars.

Fixpoint drop_while (p : char -> bool) (s : str) : str :=
  match s with
  | [] => []
  | c :: r => if p c then drop_while p r else s
  end.

(** [s.lstrip()], [s.rstrip()], [s.strip()], and [s.strip(chars)]. *)
Definition lstrip_by (p : char -> bool) (s : str) : str := drop_while p s.
Definition rstrip_by (p : char -> bool) (s : str) : str :=
  rev (drop_while p (rev s)).
Definition strip_by (p : char -> bool) (s : str) : str :=
  rstrip_by p (lstrip_by p s).

Definition strip (s : str) : str := strip_by is_space s.
Definition strip_chars (chars : str) (s : str) : str :=
  strip_by (fun c => char_in c chars) s.

(** [s.split()]: the maximal runs of non-space characters, in order.
    [cur] is the run being read, reversed. *)
Fixpoint split_ws_aux (cur : str) (s : str) : list str :=
  match s with
  | [] => match cur with [] => [] | _ => [rev cur] end
  | c :: r =>
      if is_space c
      then match cur with
           | [] => split_ws_aux [] r
           | _ => rev cur :: split_ws_aux [] r
           end
      else split_ws_aux (c :: cur) r
  end.

Definition split_ws (s : str) : list str := split_ws_aux [] s.

(** [sep.join(xs)]. *)
Fixpoint join (sep : str) (xs : list str) : str :=
  match xs with
  | [] => []
  | [x] => x
  | x :: r => x ++ sep ++ join sep r
  end.

(** [s.startswith(p)]. *)
Fixpoint starts_with (p s : str) : bool :=
  match p, s with
  | [], _ => true
  | a :: p', b :: s' => (a =? b)%N && starts_with p' s'
  | _ :: _, [] => false
  end.

(** [s.replace(old, new)] for a non-empty [old]: left to right, without
    overlap.  [skip] counts the characters of a match still to be passed. *)
Fixpoint replace_aux (old new : str) (skip : nat) (s : str) : str :=
  match s with
  | [] => []
  | c :: r =>
      match skip with
      | S k => replace_aux old new k r
      | O =>
          if starts_with old s
          then new ++ replace_aux old new (length old - 1) r
          else c :: replace_aux old new 0 r
      end
  end.

Definition replace (old new : str) (s : str) : str := replace_aux old new 0 s.

(** [s[:k]] and [s[a:b]] for [0 <= a], with Python's reading of a negative
    upper bound as counted from the end. *)
Definition slice_to {A} (k : Z) (s : list A) : list A :=
  if k <? 0 then firstn (Z.to_nat (Z.of_nat (length s) + k)) s
  else firstn (Z.to_nat k) s.

Definition slice {A} (a b : nat) (s : list A) : list A :=
  firstn (b - a) (skipn a s).

(** [needle in hay] for two strings. *)
Fixpoint str_in (needle hay : str) : bool :=
  starts_with needle hay ||
  match hay with
  | [] => false
  | _ :: r => str_in needle r
  end.

Definition is_empty (s : str) : bool :=
  match s with [] => true | _ => false end.

(** Greedy [X*]: how many leading characters satisfy [p]. *)
Fixpoint span_len (p : char -> bool) (s : str) : nat :=
  match s with
  | c :: r => if p c then S (span_len p r) else O
  | [] => O
  end.

(** ** The two [re] entry points the helpers use

    A pattern is given by its matcher [m]: [m s] is the length of the match
    that starts at the head of [s], if there is one.  None of the patterns of
    this program matches the empty string.  [skip] counts the characters of
    the current match still to be passed, [pos] is the index of the head of
    [s] in the searched text. *)

(** [re.finditer(pattern, text)]: the [(start, end)] of every match. *)
Fixpoint finditer_aux (m : str -> option nat) (skip pos : nat) (s : str)
  : list (nat * nat) :=
  match s with
  | [] => []
  | _ :: r =>
      match skip with
      | S k => finditer_aux m k (S pos) r
      | O =>
          match m s with
          | Some (S n) => (pos, (pos + S n)%nat) :: finditer_aux m n (S pos) r
          | _ => finditer_aux m 0 (S pos) r
          end
      end
  end.

Definition finditer (m : str -> option nat) (text : str) : list (nat * nat) :=
  finditer_aux m 0 0 text.

(** [re.sub(pattern, repl, text)] with a callable [repl], which receives the
    matched text. *)
Fixpoint sub_aux (m : str -> option nat) (repl : str -> str) (skip : nat)
  (s : str) : str :=
  match s with
  | [] => []
  | c :: r =>
      match skip with
      | S k => sub_aux m repl k r
      | O =>
          match m s with
          | Some (S n) => repl (firstn (S n) s) ++ sub_aux m repl n r
          | _ => c :: sub_aux m repl 0 r
          end
      end
  end.

Definition re_sub (m : str -> option nat) (repl : str -> str) (text : str)
  : str :=
  sub_aux m repl 0 text.

(** [re.split] on a one-character class that is kept by a capture group:
    text, delimiter, text, ..., text. *)
Fixpoint re_split_aux (p : char -> bool) (cur : str) (s : str) : list str :=
  match s with
  | [] => [rev cur]
  | c :: r =>
      if p c then rev cur :: [c] :: re_split_aux p [] r
      else re_split_aux p (c :: cur) r
  end.

Definition re_split (p : char -> bool) (s : str) : list str :=
  re_split_aux p [] s.

(** [str(n)] for a non-negative int: its decimal digits. *)
Fixpoint digits_of_uint (d : Decimal.uint) : str :=
  match d with
  | Decimal.Nil => []
  | Decimal.D0 r => 48%N :: digits_of_uint r
  | Decimal.D1 r => 49%N :: digits_of_uint r
  | Decimal.D2 r => 50%N :: digits_of_uint r
  | Decimal.D3 r => 51%N :: digits_of_uint r
  | Decimal.D4 r => 52%N :: digits_of_uint r
  | Decimal.D5 r => 53%N :: digits_of_uint r
  | Decimal.D6 r => 54%N :: digits_of_uint r
  | Decimal.D7 r => 55%N :: digits_of_uint r
  | Decimal.D8 r => 56%N :: digits_of_uint r
  | Decimal.D9 r => 57%N :: digits_of_uint r
  end.

Definition str_of_nat (n : nat) : str := digits_of_uint (Nat.to_uint n).

End PyStr.

Import PyStr.

(** [s.split(sep)] for a one-character separator: the pieces between the
    separators, empty ones included. *)
Fixpoint str_split_aux (sep : char) (cur : str) (s : str) : list str :=
  match s with
  | [] => [rev cur]
  | c :: r =>
      if (c =? sep)%N then rev cur :: str_split_aux sep [] r
      else str_split_aux sep (c :: cur) r
  end.

Definition str_split (sep : char) (s : str) : list str :=
  str_split_aux sep [] s.

(** ** Results of code that can raise *)

Inductive exn : Type :=
| IndexError
| ValueError
| OverflowError
| EngineError
(** the error kind the specification reserves for a silent input; no code of
    the repository raises it *)
| SilentAudio.

Inductive result (A : Type) : Type :=
| Ok (a : A)
| Raise (e : exn).

Arguments Ok {A} a.
Arguments Raise {A} e.

(** Sequencing: an exception ends the computation.  With these instances
    [x ← e; k] reads as the Python statements [x = e] followed by [k]. *)
#[export] Instance result_ret : MRet result := fun A a => Ok a.
#[export] Instance result_bind : MBind result := fun A B k r =>
  match r with
  | Ok a => k a
  | Raise e => Raise e
  end.

(** ** Python floats

    Floats are not computed with here: the operations the helpers use are the
    methods of an interface. *)
Class PyFloat : Type := {
  float : Type;
  (** a float literal of the source, e.g. [0.05] *)
  float_lit : Q -> float;
  (** [a / b] on two ints *)
  float_div : Z -> Z -> float;
  (** [x * n] for an int [n] *)
  float_mul_int : float -> Z -> float;
  (** [x > y] and [x < y] *)
  float_gtb : float -> float -> bool;
  float_ltb : float -> float -> bool;
  (** [int(x)]: raises on nan and on the infinities *)
  float_to_int : float -> result Z;
  (** [float(s)] on a string: raises [ValueError] on a malformed one *)
  float_of_str : str -> result float
}.

(** ** src/wrapper/helper.py *)

Module Wrapper.

(** *** normalize_numbers *)

Section NormalizeNumbers.

(** [\d] on a [str] (Unicode decimal digits). *)
Variable is_decimal : char -> bool.
(** [lambda m: num2words(int(m.group(1)), lang='vi')], as a function of the
    matched digits. *)
Variable num2words_int : str -> str.
(** [lambda m: num2words(float(m.group(0)), lang='vi')], as a function of
    the matched text. *)
Variable num2words_float : str -> str.

(** [(\d+)] *)
Definition match_cardinal (s : str) : option nat :=
  match span_len is_decimal s with
  | O => None
  | n => Some n
  end.

(** [(\d+)\.(\d+)]: the first group is tried at its longest and then
    shorter, the second is followed by nothing and so is at its longest. *)
Fixpoint match_decimal_try (n1 : nat) (s : str) : option nat :=
  match n1 with
  | O => None
  | S k =>
      match skipn n1 s with
      | c :: r =>
          if (c =? 46)%N && negb (span_len is_decimal r =? 0)%nat
          then Some (n1 + 1 + span_len is_decimal r)%nat
          else match_decimal_try k s
      | [] => match_decimal_try k s
      end
  end.

Definition match_decimal (s : str) : option nat :=
  match_decimal_try (span_len is_decimal s) s.

Definition patterns : list ((str -> option nat) * (str -> str)) :=
  [ (match_cardinal, num2words_int);
    (match_decimal, num2words_float) ].

Definition normalize_numbers (text : str) : str :=
  fold_left (fun text pr => re_sub (fst pr) (snd pr) text) patterns text.

Definition normalize_text (text : str) : str := normalize_numbers text.

End NormalizeNumbers.

(** *** split_into_sentences *)

Definition ELLIPSIS_TOKEN : str := u "⟦ELLIPSIS⟧".

(** The class of closing quotes and brackets that may follow the final
    punctuation: double quote, apostrophe, U+201D, U+2019, [)] and []]. *)
Definition is_closer (c : char) : bool :=
  char_in c [34; 39; 8221; 8217; 41; 93]%N.

(** The boundary pattern: the ellipsis token or one of [.!?], then any number
    of closers, then at least one space.  The two alternatives exclude each
    other, and no closer is a space, so the greedy choices are the only ones
    that can match. *)
Definition boundary_pattern (s : str) : option nat :=
  let head :=
    if starts_with ELLIPSIS_TOKEN s then Some (length ELLIPSIS_TOKEN)
    else match s with
         | c :: _ => if char_in c (u ".!?") then Some 1%nat else None
         | [] => None
         end in
  match head with
  | None => None
  | Some h =>
      let q := span_len is_closer (skipn h s) in
      let w := span_len is_space (skipn (h + q) s) in
      match w with
      | O => None
      | _ => Some (h + q + w)%nat
      end
  end.

(** [[,;:\-–—]] *)
Definition is_soft_delim (c : char) : bool :=
  char_in c [44; 59; 58; 45; 8211; 8212]%N.

(** [re.fullmatch(soft_delims_regex, s)] *)
Definition fullmatch_soft (s : str) : bool :=
  match s with
  | [c] => is_soft_delim c
  | _ => false
  end.

Definition flush (buffer_tokens : list str) : option str :=
  let chunk := strip (join (u " ") buffer_tokens) in
  if is_empty chunk then None else Some chunk.

(** The loop that re-attaches each delimiter to the token before it. *)
Fixpoint merge_parts (parts : list str) : list str :=
  match parts with
  | [] => []
  | token :: rest =>
      match rest with
      | next :: rest' =>
          if fullmatch_soft next
          then let token := token ++ next in
               (if is_empty token then [] else [strip token]) ++ merge_parts rest'
          else (if is_empty token then [] else [strip token]) ++ merge_parts rest
      | [] => if is_empty token then [] else [strip token]
      end
  end.

Definition smart_can_add (max_len : Z) (tok : str) (cur_len : Z) : bool :=
  cur_len + (if 0 <? cur_len then 1 else 0) + len tok <=? max_len.

Section Segmenter.

(** [str.lower()], the Unicode lower-casing. *)
Variable lower : str -> str.

Definition vi_conj (language : str) : gset str :=
  if decide (language = u "vi")
  then list_to_set [u "và"; u "nhưng"; u "hoặc"; u "rồi"; u "thì"; u "là";
                    u "nên"; u "vì"; u "bởi"; u "tuy"; u "dù"]
  else ∅.

(** The test that sends the last token of a full buffer away. *)
Definition defers (language : str) (last : str) : bool :=
  let last_word := strip_chars (u ".,;:-—– ") (lower last) in
  bool_decide (last_word ∈ vi_conj language)
  || ((length last =? 1)%nat && str_in last (u ",;:-")).

(** One round of the packing loop; the state is [chunks], [buffer],
    [current_len]. *)
Definition pack_step (max_len : Z) (language : str)
  (st : list str * list str * Z) (tok : str) : list str * list str * Z :=
  let '(chunks, buffer, current_len) := st in
  let tok_stripped := strip tok in
  if is_empty tok_stripped then st
  else if smart_can_add max_len tok_stripped current_len
  then (chunks, buffer ++ [tok_stripped],
        current_len + (if 0 <? current_len then 1 else 0) + len tok_stripped)
  else
    let buffer :=
      match last buffer with
      | Some last => if defers language last then removelast buffer else buffer
      | None => buffer
      end in
    let chunks :=
      match flush buffer with
      | Some out => chunks ++ [out]
      | None => chunks
      end in
    (chunks, [tok_stripped], len tok_stripped).

(** The body of [for sent in base_sentences]. *)
Definition chunk_sentence (max_len : Z) (language : str)
  (chunks : list str) (sent : str) : list str :=
  let sentence := strip sent in
  if len sentence <=? max_len then chunks ++ [sentence]
  else
    let parts := re_split is_soft_delim sentence in
    let merged := merge_parts parts in
    let '(chunks, buffer, _) :=
      fold_left (pack_step max_len language) merged (chunks, [], 0) in
    match flush buffer with
    | Some out => chunks ++ [out]
    | None => chunks
    end.

(** One round of [for match in re.finditer(boundary_pattern, text)]; the
    state is [start], [base_sentences]. *)
Definition base_step (text : str) (st : nat * list str) (mt : nat * nat)
  : nat * list str :=
  let '(start, base_sentences) := st in
  let end_ := snd mt in
  let chunk := strip (slice start end_ text) in
  (end_,
   if is_empty chunk then base_sentences
   else base_sentences ++ [replace ELLIPSIS_TOKEN (u "...") chunk]).

Definition base_sentences_of (text : str) : list str :=
  let '(start, base_sentences) :=
    fold_left (base_step text) (finditer boundary_pattern text) (O, []) in
  let tail := strip (skipn start text) in
  if is_empty tail then base_sentences
  else base_sentences ++ [replace ELLIPSIS_TOKEN (u "...") tail].

Definition mark_ellipses (paragraph : str) : str :=
  let text := strip paragraph in
  let text := replace (u "…") (u "...") text in
  replace (u "...") ELLIPSIS_TOKEN text.

Definition split_into_sentences (paragraph : str) (max_len : Z)
  (language : str) : list str :=
  if is_empty paragraph then []
  else
    let text := mark_ellipses paragraph in
    fold_left (chunk_sentence max_len language) (base_sentences_of text) [].

End Segmenter.

(** *** trim_silence and fine_tune_audio *)

(** [np.where(mask)[0]]: the indices at which the mask holds. *)
Fixpoint where_from (i : nat) (mask : list bool) : list nat :=
  match mask with
  | [] => []
  | b :: r => if b then i :: where_from (S i) r else where_from (S i) r
  end.

Definition np_where (mask : list bool) : list nat := where_from 0 mask.

(** [xs[-1]]: raises [IndexError] on an empty array. *)
Definition getitem_last {A} (xs : list A) : result A :=
  match last xs with
  | Some x => Ok x
  | None => Raise IndexError
  end.

(** numpy's [int64], the type of a frame index and of a sample index.  A
    Python int that meets an [int64] in an operation is first read as an
    [int64], which raises [OverflowError] when it is out of range; the
    result of the operation is kept modulo [2 ^ 64]. *)
Definition int64_min : Z := - 2 ^ 63.
Definition int64_max : Z := 2 ^ 63 - 1.

Definition fits_int64 (z : Z) : bool := (int64_min <=? z) && (z <=? int64_max).

Definition int64_wrap (z : Z) : Z := (z + 2 ^ 63) mod 2 ^ 64 - 2 ^ 63.

Definition int64_of_int (z : Z) : result Z :=
  if fits_int64 z then Ok z else Raise OverflowError.

(** [a + b] and [a * b] for an [int64] [a] and a Python int [b]. *)
Definition int64_add (a b : Z) : result Z :=
  b ← int64_of_int b; Ok (int64_wrap (a + b)).

Definition int64_mul (a b : Z) : result Z :=
  b ← int64_of_int b; Ok (int64_wrap (a * b)).

(** [librosa.frames_to_samples(frames, hop_length=hop_length)], which is
    [(np.asanyarray(frames) * hop_length + 0).astype(int)]. *)
Definition frames_to_samples (frame : nat) (hop_length : Z) : result Z :=
  int64_mul (Z.of_nat frame) hop_length.

Section Audio.

Context {F : PyFloat}.
(** An audio sample, and [librosa.feature.rms(y=..., frame_length=...,
    hop_length=...)[0]], the energy of each frame. *)
Variable sample : Type.
Variable rms : list sample -> Z -> Z -> list float.
(** [os.getenv(name)] and [wrapper.constants.DEFAULT_SAMPLE_RATE]. *)
Variable getenv : string -> option str.
Variable DEFAULT_SAMPLE_RATE : Z.

Definition trim_silence (audio_data : list sample) (sr : Z)
  (threshold : float) (frame_length hop_length : Z)
  (keep_silence_duration : float) : result (list sample) :=
  let rms_v := rms audio_data frame_length hop_length in
  last_frame ← getitem_last (np_where (map (fun e => float_gtb e threshold) rms_v));
  last_sample ← frames_to_samples last_frame hop_length;
  keep_silence_samples ← float_to_int (float_mul_int keep_silence_duration sr);
  stop ← int64_add last_sample keep_silence_samples;
  let trimmed_audio_data :=
    slice_to (Z.min stop (Z.of_nat (length audio_data))) audio_data in
  Ok trimmed_audio_data.

(** The defaults of [threshold], [frame_length] and [hop_length]. *)
Definition default_threshold : float := float_lit 0.01.
Definition default_frame_length : Z := 2048.
Definition default_hop_length : Z := 512.

Definition fine_tune_audio (audio : list sample) (kwargs : gmap string Z)
  : result (list sample) :=
  let sample_rate := default DEFAULT_SAMPLE_RATE (kwargs !! "sample_rate"%string) in
  keep_silence ←
    float_of_str (default (u "0.2") (getenv "XTTS_KEEP_SILENCE_DURATION"));
  trim_silence audio sample_rate default_threshold default_frame_length
    default_hop_length keep_silence.

End Audio.

(** *** calculate_inference_params *)

(** The [params] dict.  Its values are literals of the source and are kept
    as exact decimals. *)
Record Params : Type := {
  speed : Q;
  length_penalty : Q;
  temperature : Q;
  repetition_penalty : Q;
  enable_text_splitting : bool
}.

Section InferenceParams.

Context {F : PyFloat}.
Variable lower : str -> str.

Definition calculate_inference_params (text : str) : Params :=
  let text := strip text in
  let text_len := len text in
  let punctuation_count :=
    Z.of_nat (length (filter (fun c => char_in c (u ",.!?;:—-") = true) text)) in
  let punctuation_density := float_div punctuation_count (Z.max text_len 1) in
  let words := split_ws (lower text) in
  let unique_words := Z.of_nat (size (list_to_set words : gset str)) in
  let word_count := len_list words in
  let word_diversity := float_div unique_words (Z.max word_count 1) in
  if word_count <? 15 then
    {| speed := 1.04; length_penalty := 0.75; temperature := 0.8;
       repetition_penalty := 1.5; enable_text_splitting := false |}
  else
    {| speed :=
         if float_gtb punctuation_density (float_lit 0.05) then 0.98
         else if 200 <? text_len then 0.95
         else 1.0;
       length_penalty :=
         if text_len <? 80 then 1.0
         else if 200 <? text_len then 1.1
         else 1.05;
       temperature :=
         if float_gtb word_diversity (float_lit 0.7) then 0.75
         else if float_ltb word_diversity (float_lit 0.5) then 0.7
         else 0.72;
       repetition_penalty :=
         if (50 <? word_count) && float_ltb word_diversity (float_lit 0.6)
         then 4.0
         else if 30 <? word_count then 3.0
         else 2.0;
       enable_text_splitting := false |}.

End InferenceParams.

(** *** paragraph_to_audio *)

(** [d[k] = v] on a dict, which keeps insertion order. *)
Fixpoint dict_set {V} (k : str) (v : V) (d : list (str * V)) : list (str * V) :=
  match d with
  | [] => [(k, v)]
  | (k', v') :: r =>
      if decide (k = k') then (k, v) :: r else (k', v') :: dict_set k v r
  end.

(** One call of [model.inference]. *)
Record call : Type := {
  call_text : str;
  call_language : str;
  call_params : Params
}.

Section Pipeline.

Context {F : PyFloat}.
Variable lower : str -> str.
Variable is_decimal : char -> bool.
Variable num2words_int : str -> str.
Variable num2words_float : str -> str.
Variable sample : Type.
Variable rms : list sample -> Z -> Z -> list float.
Variable getenv : string -> option str.
(** [wrapper.constants] *)
Variable DEFAULT_SAMPLE_RATE : Z.
Variable DEFAULT_OUTPUT_FILE_LENGTH : Z.
(** [model.inference(text=..., language=..., **params)["wav"]] *)
Variable inference : str -> str -> Params -> result (list sample).

(** [f"{index}_{sentence[:DEFAULT_OUTPUT_FILE_LENGTH]}"] *)
Definition audio_name (index : nat) (sentence : str) : str :=
  str_of_nat index ++ u "_" ++ slice_to DEFAULT_OUTPUT_FILE_LENGTH sentence.

(** The loop over [enumerate(sentences)].  The state is [audio_map] and
    the calls made to the engine so far; the calls are returned also when
    an exception ends the loop. *)
Fixpoint process_sentences (language : str) (items : list (nat * str))
  (audio_map : list (str * list sample)) (calls : list call)
  : list call * result (list (str * list sample)) :=
  match items with
  | [] => (calls, Ok audio_map)
  | (index, sentence) :: rest =>
      let text := strip sentence in
      if is_empty text then process_sentences language rest audio_map calls
      else
        let text := normalize_text is_decimal num2words_int num2words_float text in
        let inference_params := calculate_inference_params lower text in
        let calls :=
          calls ++ [{| call_text := text; call_language := language;
                       call_params := inference_params |}] in
        match inference text language inference_params with
        | Raise e => (calls, Raise e)
        | Ok out_wav =>
            match fine_tune_audio sample rms getenv DEFAULT_SAMPLE_RATE out_wav
                    {[ "sample_rate"%string := DEFAULT_SAMPLE_RATE ]} with
            | Raise e => (calls, Raise e)
            | Ok tuned_audio =>
                process_sentences language rest
                  (dict_set (audio_name index sentence) tuned_audio audio_map)
                  calls
            end
        end
  end.

Definition enumerate {A} (xs : list A) : list (nat * A) :=
  combine (seq 0 (length xs)) xs.

Definition paragraph_to_audio (paragraph : str) (language : str)
  : list call * result (list (str * list sample)) :=
  let sentences := split_into_sentences lower paragraph 250 language in
  process_sentences language (enumerate sentences) [] [].

End Pipeline.

(** *** split_text_smart *)

(** The class [[.!?;:]] of the look-behind. *)
Definition is_sentence_end (c : char) : bool := char_in c (u ".!?;:").

(** [re.split] on a run of spaces that comes just after a character of the
    class [term] (a look-behind, so the character stays with the piece before
    it).  A match starts at a space that follows such a character and takes
    the whole run; [after_term] says that the character just read is of the
    class, [in_match] that the run of a match is being passed, [cur] is the
    piece being read, reversed. *)
Fixpoint split_after_aux (term : char -> bool) (after_term in_match : bool)
  (cur : str) (s : str) : list str :=
  match s with
  | [] => [rev cur]
  | c :: r =>
      if is_space c && in_match then split_after_aux term false true cur r
      else if is_space c && after_term
      then rev cur :: split_after_aux term false true [] r
      else split_after_aux term (term c) false (c :: cur) r
  end.

Definition split_after (term : char -> bool) (s : str) : list str :=
  split_after_aux term false false [] s.

Definition split_text_smart (text : str) : list str :=
  let sentences := split_after is_sentence_end (strip text) in
  List.filter (fun s => negb (is_empty s)) sentences.

End Wrapper.

(** ** src/helper.py, the legacy helpers *)

Module Legacy.

Section LegacyHelpers.

Context {F : PyFloat}.
Variable is_decimal : char -> bool.
Variable num2words_int : str -> str.
Variable num2words_float : str -> str.
Variable sample : Type.
Variable rms : list sample -> Z -> Z -> list float.
Variable DEFAULT_SAMPLE_RATE : Z.

(** The same list of patterns, in the same order, as in the wrapper. *)
Definition normalize_numbers (text : str) : str :=
  fold_left (fun text pr => re_sub (fst pr) (snd pr) text)
    [ (Wrapper.match_cardinal is_decimal, num2words_int);
      (Wrapper.match_decimal is_decimal, num2words_float) ] text.

(** The body is the one of the wrapper; the default of
    [keep_silence_duration] is 0.8 here. *)
Definition trim_silence (audio_data : list sample) (sr : Z)
  (threshold : float) (frame_length hop_length : Z)
  (keep_silence_duration : float) : result (list sample) :=
  let rms_v := rms audio_data frame_length hop_length in
  last_frame ←
    Wrapper.getitem_last
      (Wrapper.np_where (map (fun e => float_gtb e threshold) rms_v));
  last_sample ← Wrapper.frames_to_samples last_frame hop_length;
  keep_silence_samples ← float_to_int (float_mul_int keep_silence_duration sr);
  stop ← Wrapper.int64_add last_sample keep_silence_samples;
  Ok (slice_to (Z.min stop (Z.of_nat (length audio_data))) audio_data).

Definition default_keep_silence_duration : float := float_lit 0.8.

Definition fine_tune_audio (audio : list sample) (kwargs : gmap string Z)
  : result (list sample) :=
  let sample_rate :=
    default DEFAULT_SAMPLE_RATE (kwargs !! "gpt_cond_latent"%string) in
  trim_silence audio sample_rate (float_lit 0.01) 2048 512
    default_keep_silence_duration.

End LegacyHelpers.

(** [np.concatenate(arrays)]: raises [ValueError] when there is no array. *)
Definition np_concatenate {A} (arrays : list (list A)) : result (list A) :=
  match arrays with
  | [] => Raise ValueError
  | _ => Ok (concat arrays)
  end.

Section LegacyPipeline.

Context {F : PyFloat}.
Variable is_decimal : char -> bool.
Variable num2words_int : str -> str.
Variable num2words_float : str -> str.
Variable sample : Type.
Variable rms : list sample -> Z -> Z -> list float.
Variable DEFAULT_SAMPLE_RATE : Z.
(** [wrapper.inference(text=..., language=...)["wav"]] *)
Variable inference : str -> str -> result (list sample).

Definition normalize_text (text : str) : str :=
  normalize_numbers is_decimal num2words_int num2words_float text.

(** The loop over the sentences.  The state is [audio_list] and the calls
    made to the engine so far, as (text, language); the calls are returned
    also when an exception ends the loop. *)
Fixpoint process_sentences (sentences : list str)
  (audio_list : list (list sample)) (calls : list (str * str))
  : list (str * str) * result (list (list sample)) :=
  match sentences with
  | [] => (calls, Ok audio_list)
  | sentence :: rest =>
      let text := strip sentence in
      if is_empty text then process_sentences rest audio_list calls
      else
        let text := normalize_text text in
        let calls := calls ++ [(text, u "vi")] in
        match inference text (u "vi") with
        | Raise e => (calls, Raise e)
        | Ok out_wav =>
            match fine_tune_audio sample rms DEFAULT_SAMPLE_RATE out_wav
                    {[ "sample_rate"%string := DEFAULT_SAMPLE_RATE ]} with
            | Raise e => (calls, Raise e)
            | Ok tuned_audio =>
                process_sentences rest (audio_list ++ [tuned_audio]) calls
            end
        end
  end.

Definition paragraph_to_audio (paragraph : str)
  : list (str * str) * result (list sample) :=
  let sentences := str_split 46%N paragraph in
  let '(calls, audio_list) := process_sentences sentences [] [] in
  (calls, audio_list ← audio_list; np_concatenate audio_list).

End LegacyPipeline.

End Legacy.

(** ** src/wrapper/model.py *)

Module Model.

Section XTTS.

Context {F : PyFloat}.
(** A Python object passed by keyword, and the floats and bools among
    them. *)
Variable V : Type.
Variable of_float : float -> V.
Variable of_bool : bool -> V.
Variable lower : str -> str.
Variable getenv : string -> option str.
(** [self.model.inference(text=..., language=..., **keywords)], as a function
    of the text, the language and all the other keywords. *)
Variable out : Type.
Variable engine : str -> str -> gmap string V -> result out.

(** The attributes of an [XTTSWrapper] that [inference] reads. *)
Record XTTSWrapper : Type := {
  model_gpt_cond_latent : V;
  model_speaker_embedding : V;
  temperature : V;
  length_penalty : V;
  repetition_penalty : V;
  top_k : V;
  top_p : V
}.

(** [kwargs.pop(key, default)]: the value and the dict without the key. *)
Definition pop (key : string) (dflt : V) (kwargs : gmap string V)
  : V * gmap string V :=
  (default dflt (kwargs !! key), delete key kwargs).

(** [os.getenv(name, 'True').lower() == 'true'] *)
Definition env_flag (name : string) : bool :=
  bool_decide (lower (default (u "True") (getenv name)) = u "true").

(** The defaults of [pop] are evaluated whether the key is there or not;
    of them only [float(os.getenv('XTTS_SPEED', '1.0'))] can raise. *)
Definition inference (self : XTTSWrapper) (text language : str)
  (kwargs : gmap string V) : result out :=
  let '(gpt_cond_latent, kwargs) :=
    pop "gpt_cond_latent" (model_gpt_cond_latent self) kwargs in
  let '(speaker_embedding, kwargs) :=
    pop "speaker_embedding" (model_speaker_embedding self) kwargs in
  let '(temperature, kwargs) := pop "temperature" (temperature self) kwargs in
  let '(length_penalty, kwargs) :=
    pop "length_penalty" (length_penalty self) kwargs in
  let '(repetition_penalty, kwargs) :=
    pop "repetition_penalty" (repetition_penalty self) kwargs in
  let '(top_k, kwargs) := pop "top_k" (top_k self) kwargs in
  let '(top_p, kwargs) := pop "top_p" (top_p self) kwargs in
  let '(do_sample, kwargs) :=
    pop "do_sample" (of_bool (env_flag "XTTS_DO_SAMPLE")) kwargs in
  speed_default ← float_of_str (default (u "1.0") (getenv "XTTS_SPEED"));
  let '(speed, kwargs) := pop "speed" (of_float speed_default) kwargs in
  let '(enable_text_splitting, kwargs) :=
    pop "enable_text_splitting"
      (of_bool (env_flag "XTTS_ENABLE_TEXT_SPLITTING")) kwargs in
  engine text language
    (<["gpt_cond_latent"%string := gpt_cond_latent]>
       (<["speaker_embedding"%string := speaker_embedding]>
          (<["temperature"%string := temperature]>
             (<["length_penalty"%string := length_penalty]>
                (<["repetition_penalty"%string := repetition_penalty]>
                   (<["top_k"%string := top_k]>
                      (<["top_p"%string := top_p]>
                         (<["do_sample"%string := do_sample]>
                            (<["speed"%string := speed]>
                               (<["enable_text_splitting"%string :=
                                    enable_text_splitting]> kwargs)))))))))).



End XTTS.

End Model.

(** ** src/main.py *)

Module Main.

Section ZipNames.

(** [c.isalnum()] and [wrapper.constants.DEFAULT_OUTPUT_FILE_LENGTH]. *)
Variable isalnum : char -> bool.
Variable DEFAULT_OUTPUT_FILE_LENGTH : Z.

(** The name under which an audio is written into the archive. *)
Definition safe_name (audio_name : str) : str :=
  let safe_name :=
    strip (List.filter (fun c => isalnum c || char_in c (u "-_ ")) audio_name) in
  slice_to DEFAULT_OUTPUT_FILE_LENGTH
    (if is_empty safe_name then u "audio" else safe_name)
  ++ u ".wav".

End ZipNames.

End Main.

(** ** Concrete collaborators

    Instances of the parameters, on which the statements below are run: exact
    rational arithmetic in place of floats, ASCII digits and letters, a
    speller with one word, an energy that is the magnitude of the first
    sample of each hop, and an engine that answers a fixed wave. *)

Module Examples.

Definition Q_to_int (q : Q) : Z := Z.quot (Qnum q) (Z.pos (Qden q)).

#[export] Instance QFloat : PyFloat := {|
  float := Q;
  float_lit := fun q => q;
  float_div := fun a b => Qmake a (Z.to_pos b);
  float_mul_int := fun x n => Qmult x (inject_Z n);
  float_gtb := fun x y => negb (Qle_bool x y);
  float_ltb := fun x y => negb (Qle_bool y x);
  float_to_int := fun x => Ok (Q_to_int x);
  float_of_str := fun s =>
    if decide (s = u "0.2") then Ok 0.2%Q else Raise ValueError
|}.

(** A lower-casing that is [str.lower()] on every text without an upper-case
    letter outside ASCII. *)
Definition lower_ascii_char (c : char) : char :=
  if ((65 <=? c) && (c <=? 90))%N then (c + 32)%N else c.

Definition lower_ascii (s : str) : str := map lower_ascii_char s.

Definition ascii_digit (c : char) : bool := ((48 <=? c) && (c <=? 57))%N.

Definition one_word (_ : str) : str := u "số".

(** One frame per hop, the energy of a frame being the magnitude of its
    first sample. *)
Fixpoint hop_rms (fuel : nat) (audio : list Z) (hop : nat) : list Q :=
  match fuel with
  | O => []
  | S fuel' =>
      match audio with
      | [] => []
      | x :: _ => inject_Z (Z.abs x) :: hop_rms fuel' (skipn (S (hop - 1)) audio) hop
      end
  end.

Definition toy_rms (audio : list Z) (frame_length hop_length : Z) : list Q :=
  hop_rms (length audio) audio (Z.to_nat hop_length).



Definition no_env (_ : string) : option str := None.

Definition fixed_wave (_ _ : str) (_ : Wrapper.Params) : result (list Z) :=
  Ok [4; 3; 5; 0; 0; 0].

(** The legacy engine call, answering the same wave. *)
Definition fixed_wave_legacy (_ _ : str) : result (list Z) :=
  Ok [4; 3; 5; 0; 0; 0].

(** Keyword values that are floats or bools, an engine that answers the
    keywords it was called with, and a wrapper whose attributes are all
    [1.0]. *)
Definition echo_engine (_ _ : str) (keywords : gmap string (Q + bool))
  : result (gmap string (Q + bool)) :=
  Ok keywords.

Definition unit_wrapper : Model.XTTSWrapper (Q + bool) :=
  {| Model.model_gpt_cond_latent := inl 1%Q;
     Model.model_speaker_embedding := inl 1%Q;
     Model.temperature := inl 1%Q;
     Model.length_penalty := inl 1%Q;
     Model.repetition_penalty := inl 1%Q;
     Model.top_k := inl 1%Q;
     Model.top_p := inl 1%Q |}.

(** An environment in which [XTTS_SPEED] is not a number. *)
Definition bad_speed_env (name : string) : option str :=
  if decide (name = "XTTS_SPEED"%string) then Some (u "fast") else None.

(** An environment in which [XTTS_SPEED] is [0.2]. *)
Definition speed_env (name : string) : option str :=
  if decide (name = "XTTS_SPEED"%string) then Some (u "0.2") else None.

(** ASCII letters and digits. *)
Definition ascii_alnum (c : char) : bool :=
  ((48 <=? c) && (c <=? 57) || (65 <=? c) && (c <=? 90)
   || (97 <=? c) && (c <=? 122))%N.

End Examples.

(** ** Vocabulary of the statements *)

Module Spec.

(** The number of whitespace-separated words [calculate_inference_params]
    counts. *)
Definition word_count (lower : str -> str) (text : str) : Z :=
  len_list (split_ws (lower (strip text))).

(** The fixed parameters of a very short input. *)
Definition short_params : Wrapper.Params :=
  {| Wrapper.speed := 1.04; Wrapper.length_penalty := 0.75;
     Wrapper.temperature := 0.8; Wrapper.repetition_penalty := 1.5;
     Wrapper.enable_text_splitting := false |}.

(** No character of [s] is a digit. *)
Definition digit_free (is_decimal : char -> bool) (s : str) : bool :=
  forallb (fun c => negb (is_decimal c)) s.


(** Empty or made of whitespace only. *)
Definition blank (s : str) : bool := forallb is_space s.

(** [s] has a soft delimiter; [s] has none; [s] has none before its last
    character. *)
Definition has_soft (s : str) : bool := existsb Wrapper.is_soft_delim s.
Definition no_soft (s : str) : bool :=
  forallb (fun c => negb (Wrapper.is_soft_delim c)) s.
Definition soft_only_last (s : str) : bool := no_soft (removelast s).

(** The length bound as the specification states it, and as the segmenter
    keeps it. *)
Definition bounded_or_undelimited (max_len : Z) (chunk : str) : Prop :=
  (len chunk <= max_len \/ has_soft chunk = false) /\ blank chunk = false.
Definition bounded_or_one_token (max_len : Z) (chunk : str) : Prop :=
  (len chunk <= max_len \/ soft_only_last chunk = true) /\ blank chunk = false.

(** A frame whose energy is above the threshold. *)
Definition above {F : PyFloat} (threshold : float) (e : float) : Prop :=
  float_gtb e threshold = true.

(** The pattern [m] matches at no position of [s]. *)
Fixpoint never_matches (m : str -> option nat) (s : str) : Prop :=
  match s with
  | [] => True
  | _ :: r => m s = None /\ never_matches m r
  end.

(** What the packing loop keeps true of its buffer: it is empty, or within
    the bound, or one token; its tokens are not empty and [current_len] is
    the length of their join. *)
Definition fits_or_single (max_len : Z) (buffer : list str) : Prop :=
  buffer = []
  \/ len (join (u " ") buffer) <= max_len
  \/ exists t, buffer = [t] /\ soft_only_last (strip t) = true.

Definition buffer_inv (max_len : Z) (buffer : list str) (current_len : Z)
  : Prop :=
  Forall (fun t => t <> []) buffer
  /\ current_len = len (join (u " ") buffer)
  /\ fits_or_single max_len buffer.

(** The ends of the matches of a search in [text], from [start] on: in
    order, within the text, each just after a space. *)
Fixpoint ends_ok (text : str) (start : nat) (ms : list (nat * nat)) : Prop :=
  match ms with
  | [] => True
  | mt :: r =>
      (start <= snd mt <= length text)%nat
      /\ (0 < snd mt)%nat
      /\ (exists c, text !! (snd mt - 1)%nat = Some c /\ is_space c = true)
      /\ ends_ok text (snd mt) r
  end.

(** [" ".join(s.split())], and [s] without its whitespace. *)
Definition ws_normalize (s : str) : str := join (u " ") (split_ws s).
Definition remove_ws (s : str) : str :=
  List.filter (fun c => negb (is_space c)) s.

(** The ellipsis normalization of the segmenter: the unicode ellipsis becomes
    three dots, and so does, on the way back from the token that protects
    the dots, any text that reads as that token. *)
Definition normalize_ellipses (paragraph : str) : str :=
  replace Wrapper.ELLIPSIS_TOKEN (u "...")
    (replace (u "...") Wrapper.ELLIPSIS_TOKEN
       (replace (u "…") (u "...") paragraph)).

(** Every sentence is within [max_len], so none is re-chunked. *)
Definition all_sentences_fit (paragraph : str) (max_len : Z) : bool :=
  forallb (fun sent => len (strip sent) <=? max_len)
    (Wrapper.base_sentences_of (Wrapper.mark_ellipses paragraph)).

(** [s] with a space after each of its soft delimiters, and a sentence as
    it reads in the chunks: as it is when it fits [max_len], and with a
    space after each soft delimiter when it is re-chunked, the tokens being
    cut after each delimiter and joined by spaces. *)
Definition space_after_soft (s : str) : str :=
  flat_map (fun c => if Wrapper.is_soft_delim c then [c; 32%N] else [c]) s.

Definition rechunked (max_len : Z) (sent : str) : str :=
  if len (strip sent) <=? max_len then sent else space_after_soft (strip sent).

(** The packing loop, in the state [st], moves the last token of its buffer
    away when it reads [tok]: the token does not fit and the last token is a
    conjunction or a bare delimiter. *)
Definition pops_at (lower : str -> str) (max_len : Z) (language : str)
  (st : list str * list str * Z) (tok : str) : bool :=
  let '(_, buffer, current_len) := st in
  negb (is_empty (strip tok))
  && negb (Wrapper.smart_can_add max_len (strip tok) current_len)
  && match last buffer with
     | Some last => Wrapper.defers lower language last
     | None => false
     end.

(** No token is moved away while the loop reads [merged] from the state
    [st]; while the sentences [sents] are chunked after [chunks]; in the
    whole run on a paragraph. *)
Fixpoint no_pop (lower : str -> str) (max_len : Z) (language : str)
  (st : list str * list str * Z) (merged : list str) : bool :=
  match merged with
  | [] => true
  | tok :: rest =>
      negb (pops_at lower max_len language st tok)
      && no_pop lower max_len language
           (Wrapper.pack_step lower max_len language st tok) rest
  end.

Fixpoint no_pop_from (lower : str -> str) (max_len : Z) (language : str)
  (chunks : list str) (sents : list str) : bool :=
  match sents with
  | [] => true
  | sent :: rest =>
      ((len (strip sent) <=? max_len)
       || no_pop lower max_len language (chunks, [], 0)
            (Wrapper.merge_parts (re_split Wrapper.is_soft_delim (strip sent))))
      && no_pop_from lower max_len language
           (Wrapper.chunk_sentence lower max_len language chunks sent) rest
  end.

Definition no_token_popped (lower : str -> str) (paragraph : str)
  (max_len : Z) (language : str) : bool :=
  no_pop_from lower max_len language []
    (Wrapper.base_sentences_of (Wrapper.mark_ellipses paragraph)).

(** In every sentence that is re-chunked, each soft delimiter ends its
    word: it is followed by whitespace or ends the sentence. *)
Definition soft_delims_spaced (paragraph : str) (max_len : Z) : bool :=
  forallb (fun sent =>
             (len (strip sent) <=? max_len)
             || forallb soft_only_last (split_ws sent))
    (Wrapper.base_sentences_of (Wrapper.mark_ellipses paragraph)).

(** No whitespace at either end; ending in a character of a class. *)
Definition tight (s : str) : bool :=
  match head s with Some a => negb (is_space a) | None => true end
  && match last s with Some b => negb (is_space b) | None => true end.

Definition ends_in (term : char -> bool) (s : str) : bool :=
  match last s with Some b => term b | None => false end.

(** What the scan of [Wrapper.split_after_aux] keeps true, [pre] being the
    piece read so far: a piece that has begun begins with no space; just
    after a character of the class the piece ends in it; at the very start
    the text begins with no space; the text ends with no space. *)
Definition scan_inv (term : char -> bool) (after_term in_match : bool)
  (pre s : str) : Prop :=
  (in_match = true -> pre = [])
  /\ match head pre with Some a => is_space a = false | None => True end
  /\ (after_term = true -> in_match = false /\ ends_in term pre = true)
  /\ (in_match = false -> pre = [] ->
      match head s with Some a => is_space a = false | None => True end)
  /\ match last (pre ++ s) with Some b => is_space b = false | None => True end.

(** The pipeline, said per chunk: what is sent to the engine for a chunk,
    what is stored for it, and which chunks are kept. *)
Section PipelineSpec.

Context {F : PyFloat}.
Variable lower : str -> str.
Variable is_decimal : char -> bool.
Variable num2words_int : str -> str.
Variable num2words_float : str -> str.
Variable sample : Type.
Variable rms : list sample -> Z -> Z -> list float.
Variable getenv : string -> option str.
Variable DEFAULT_SAMPLE_RATE : Z.
Variable inference : str -> str -> Wrapper.Params -> result (list sample).

(** The chunk after number normalization. *)
Definition normalized (sentence : str) : str :=
  Wrapper.normalize_numbers is_decimal num2words_int num2words_float
    (strip sentence).

(** The call made for a chunk: the normalized text, the language, and the
    parameters calculated from the normalized text. *)
Definition expected_call (language : str) (sentence : str) : Wrapper.call :=
  {| Wrapper.call_text := normalized sentence;
     Wrapper.call_language := language;
     Wrapper.call_params :=
       Wrapper.calculate_inference_params lower (normalized sentence) |}.

(** Synthesis of a chunk, then the trimming of its silence at the default
    rate. *)
Definition synthesize_and_trim (language : str) (sentence : str)
  : result (list sample) :=
  out_wav ← inference (normalized sentence) language
              (Wrapper.calculate_inference_params lower (normalized sentence));
  keep_silence ←
    float_of_str (default (u "0.2") (getenv "XTTS_KEEP_SILENCE_DURATION"));
  Wrapper.trim_silence sample rms out_wav DEFAULT_SAMPLE_RATE (float_lit 0.01)
    2048 512 keep_silence.

(** The chunks that are not skipped. *)
Definition kept (items : list (nat * str)) : list (nat * str) :=
  List.filter (fun item => negb (is_empty (strip (snd item)))) items.

End PipelineSpec.

(** The legacy pipeline, said per sentence. *)
Section LegacySpec.

Context {F : PyFloat}.
Variable is_decimal : char -> bool.
Variable num2words_int : str -> str.
Variable num2words_float : str -> str.
Variable sample : Type.
Variable rms : list sample -> Z -> Z -> list float.
Variable DEFAULT_SAMPLE_RATE : Z.
Variable inference : str -> str -> result (list sample).

(** The sentences that are not skipped. *)
Definition kept_sentences (sentences : list str) : list str :=
  List.filter (fun s => negb (is_empty (strip s))) sentences.

(** The call made for a sentence: its normalized text, in Vietnamese. *)
Definition legacy_call (sentence : str) : str * str :=
  (Legacy.normalize_text is_decimal num2words_int num2words_float
     (strip sentence), u "vi").

(** Synthesis of a sentence, then the trimming of its silence at the default
    rate, 0.8 seconds of it being kept. *)
Definition legacy_synthesize_and_trim (sentence : str) : result (list sample) :=
  out_wav ← inference (fst (legacy_call sentence)) (u "vi");
  Legacy.trim_silence sample rms out_wav DEFAULT_SAMPLE_RATE (float_lit 0.01)
    2048 512 (float_lit 0.8).

End LegacySpec.

(** The keywords [XTTSWrapper.inference] falls back on, [speed_default]
    being the float read from [XTTS_SPEED]. *)
Definition inference_defaults {F : PyFloat} (V : Type) (of_float : float -> V)
  (of_bool : bool -> V) (lower : str -> str) (getenv : string -> option str)
  (self : Model.XTTSWrapper V) (speed_default : float) : gmap string V :=
  <["gpt_cond_latent"%string := Model.model_gpt_cond_latent V self]>
    (<["speaker_embedding"%string := Model.model_speaker_embedding V self]>
       (<["temperature"%string := Model.temperature V self]>
          (<["length_penalty"%string := Model.length_penalty V self]>
             (<["repetition_penalty"%string := Model.repetition_penalty V self]>
                (<["top_k"%string := Model.top_k V self]>
                   (<["top_p"%string := Model.top_p V self]>
                      (<["do_sample"%string :=
                           of_bool (Model.env_flag lower getenv "XTTS_DO_SAMPLE")]>
                         (<["speed"%string := of_float speed_default]>
                            (<["enable_text_splitting"%string :=
                                 of_bool
                                   (Model.env_flag lower getenv
                                      "XTTS_ENABLE_TEXT_SPLITTING")]> ∅))))))))).

End Spec.

(** * Properties *)

(** ** calculate_inference_params *)

Section ParamsFacts.

Context {F : PyFloat}.
Variable lower : str -> str.

Lemma long_params_speed text :
  15 <= Spec.word_count lower text ->
  Wrapper.speed (Wrapper.calculate_inference_params lower text) <> 1.04%Q.
Proof.
  unfold Spec.word_count, Wrapper.calculate_inference_params. intros Hwc.
  destruct (Z.ltb_spec (len_list (split_ws (lower (strip text)))) 15) as [Hlt|_];
    [lia|]. cbn [Wrapper.speed].
  repeat match goal with |- context [if ?b then _ else _] => destruct b end;
    discriminate.
Qed.

(** C7. A text of fewer than 15 words gets exactly the fixed short-input
    parameters; a text of 15 words or more does not (its speed is one of
    0.98, 0.95, 1.0), so 14 and 15 words take different branches; and
    [enable_text_splitting] is false for every input. *)
Theorem calculate_inference_params_short_branch (text : str) :
  (Spec.word_count lower text < 15 ->
     Wrapper.calculate_inference_params lower text = Spec.short_params)
  /\ (15 <= Spec.word_count lower text ->
      Wrapper.calculate_inference_params lower text <> Spec.short_params)
  /\ Wrapper.enable_text_splitting
       (Wrapper.calculate_inference_params lower text) = false.
Proof.
  split; [|split].
  - unfold Spec.word_count, Wrapper.calculate_inference_params. intros Hwc.
    destruct (Z.ltb_spec (len_list (split_ws (lower (strip text)))) 15); [reflexivity|lia].
  - intros Hwc Heq. apply (long_params_speed text Hwc). now rewrite Heq.
  - unfold Wrapper.calculate_inference_params.
    destruct (_ <? 15); reflexivity.
Qed.

End ParamsFacts.

(** A text of 14 words and one of 15 words, run through the theorem. *)
Lemma calculate_inference_params_short_branch_witness :
  Wrapper.calculate_inference_params (F := Examples.QFloat) Examples.lower_ascii
    (u "a b c d e f g h i j k l m n") = Spec.short_params
  /\ Wrapper.calculate_inference_params (F := Examples.QFloat) Examples.lower_ascii
       (u "a b c d e f g h i j k l m n o") <> Spec.short_params.
Proof.
  split.
  - apply (calculate_inference_params_short_branch Examples.lower_ascii
             (u "a b c d e f g h i j k l m n")).
    vm_compute. reflexivity.
  - apply (calculate_inference_params_short_branch Examples.lower_ascii
             (u "a b c d e f g h i j k l m n o")).
    vm_compute. discriminate.
Defined.

(** ** trim_silence *)

Section MaskFacts.

Lemma where_from_nil mask i :
  Wrapper.where_from i mask = [] <-> forall j, mask !! j <> Some true.
Proof.
  revert i. induction mask as [|b r IH]; intros i; simpl.
  - split; [intros _ j; rewrite lookup_nil; discriminate | reflexivity].
  - destruct b.
    + split; [discriminate|]. intros Hall. now destruct (Hall O).
    + rewrite IH. split.
      * intros Hall [|j]; [discriminate|apply Hall].
      * intros Hall j. apply (Hall (S j)).
Qed.


Lemma slice_to_prefix {A} (k : Z) (s : list A) : slice_to k s `prefix_of` s.
Proof. unfold slice_to. destruct (k <? 0); apply prefix_take. Qed.


End MaskFacts.

Section TrimFacts.

Context {F : PyFloat}.
Variable sample : Type.
Variable rms : list sample -> Z -> Z -> list float.

Local Abbreviation active := Spec.above.

Lemma mask_lookup_true threshold (es : list float) j :
  map (fun e => float_gtb e threshold) es !! j = Some true
  <-> exists e, es !! j = Some e /\ active threshold e.
Proof.
  unfold Spec.above. change (map ?f es) with (f <$> es).
  rewrite list_lookup_fmap. destruct (es !! j) as [e|]; simpl.
  - split; [intros [= Hb]; eauto | intros (e' & [= <-] & Hb); now rewrite Hb].
  - split; [discriminate | intros (e' & He & _); discriminate].
Qed.

Lemma silent_where threshold (es : list float) :
  Wrapper.np_where (map (fun e => float_gtb e threshold) es) = []
  <-> Forall (fun e => float_gtb e threshold = false) es.
Proof.
  unfold Wrapper.np_where. rewrite where_from_nil, Forall_lookup. split.
  - intros Hall j e He. destruct (float_gtb e threshold) eqn:Hb; [|reflexivity].
    exfalso. apply (Hall j). apply mask_lookup_true. exists e. now split.
  - intros Hall j Hj. apply mask_lookup_true in Hj as (e & He & Hb).
    unfold Spec.above in Hb. rewrite (Hall j e He) in Hb. discriminate.
Qed.









End TrimFacts.





(** ** The legacy fine_tune_audio *)

Section LegacyFacts.

Context {F : PyFloat}.
Variable sample : Type.
Variable rms : list sample -> Z -> Z -> list float.
Variable DEFAULT_SAMPLE_RATE : Z.

(** C10. A call that passes [sample_rate=X] and no [gpt_cond_latent]
    trims with [sr = DEFAULT_SAMPLE_RATE], whatever [X] is: the keyword
    that is read is [gpt_cond_latent]. *)
Theorem legacy_fine_tune_audio_ignores_sample_rate
  (audio : list sample) (kwargs : gmap string Z) (X : Z) :
  kwargs !! "gpt_cond_latent"%string = None ->
  Legacy.fine_tune_audio sample rms DEFAULT_SAMPLE_RATE audio
    (<["sample_rate"%string := X]> kwargs)
  = Legacy.trim_silence sample rms audio DEFAULT_SAMPLE_RATE
      (float_lit 0.01) 2048 512 (float_lit 0.8).
Proof.
  intros Hnone. unfold Legacy.fine_tune_audio.
  rewrite lookup_insert_ne by discriminate. rewrite Hnone. reflexivity.
Qed.

End LegacyFacts.

(** A call with [sample_rate=5] when the default rate is 10: the two kept
    samples of silence are those of the rate 10 ([int(0.8 * 10) = 8] would be
    [int(0.8 * 5) = 4] at the rate passed). *)
Lemma legacy_fine_tune_audio_ignores_sample_rate_witness :
  Legacy.fine_tune_audio (F := Examples.QFloat) Z Examples.toy_rms 10
    [4; 3; 5; 0; 0; 0; 0; 0; 0; 0; 0; 0] (<["sample_rate"%string := 5]> ∅)
  = Legacy.trim_silence (F := Examples.QFloat) Z Examples.toy_rms
      [4; 3; 5; 0; 0; 0; 0; 0; 0; 0; 0; 0] 10 (1 # 100)%Q 2048 512 (8 # 10)%Q
  /\ Legacy.trim_silence (F := Examples.QFloat) Z Examples.toy_rms
       [4; 3; 5; 0; 0; 0; 0; 0; 0; 0; 0; 0] 10 (1 # 100)%Q 2048 512 (8 # 10)%Q
     = Ok [4; 3; 5; 0; 0; 0; 0; 0]
  /\ Legacy.trim_silence (F := Examples.QFloat) Z Examples.toy_rms
       [4; 3; 5; 0; 0; 0; 0; 0; 0; 0; 0; 0] 5 (1 # 100)%Q 2048 512 (8 # 10)%Q
     = Ok [4; 3; 5; 0].
Proof.
  split; [|split; reflexivity].
  apply (legacy_fine_tune_audio_ignores_sample_rate (F := Examples.QFloat) Z
           Examples.toy_rms 10 [4; 3; 5; 0; 0; 0; 0; 0; 0; 0; 0; 0] ∅ 5).
  reflexivity.
Defined.

(** ** normalize_numbers *)

Section SubFacts.

Variable m : str -> option nat.
Variable repl : str -> str.

Local Abbreviation never_matches := (Spec.never_matches m).

Lemma sub_aux_no_match s : never_matches s -> sub_aux m repl 0 s = s.
Proof.
  induction s as [|c r IH]; simpl; [reflexivity|].
  intros [Hm Hr]. rewrite Hm. now rewrite IH.
Qed.

End SubFacts.

Section NumbersFacts.

Variable is_decimal : char -> bool.
Variable num2words_int : str -> str.
Variable num2words_float : str -> str.

Local Abbreviation digit_free := (Spec.digit_free is_decimal).
Local Abbreviation normalize_numbers :=
  (Wrapper.normalize_numbers is_decimal num2words_int num2words_float).

Lemma digit_free_app a b :
  digit_free (a ++ b) = digit_free a && digit_free b.
Proof. apply forallb_app. Qed.

Lemma digit_free_span s : digit_free s = true -> span_len is_decimal s = O.
Proof.
  destruct s as [|c r]; simpl; [reflexivity|].
  destruct (is_decimal c); [discriminate|reflexivity].
Qed.

Lemma digit_free_never_cardinal s :
  digit_free s = true -> Spec.never_matches (Wrapper.match_cardinal is_decimal) s.
Proof.
  induction s as [|c r IH]; [easy|]. intros Hdf. split.
  - unfold Wrapper.match_cardinal. now rewrite (digit_free_span _ Hdf).
  - apply IH. simpl in Hdf. now apply andb_true_iff in Hdf as [_ ?].
Qed.

Lemma digit_free_never_decimal s :
  digit_free s = true -> Spec.never_matches (Wrapper.match_decimal is_decimal) s.
Proof.
  induction s as [|c r IH]; [easy|]. intros Hdf. split.
  - unfold Wrapper.match_decimal. now rewrite (digit_free_span _ Hdf).
  - apply IH. simpl in Hdf. now apply andb_true_iff in Hdf as [_ ?].
Qed.

Lemma normalize_numbers_passes text :
  normalize_numbers text
  = re_sub (Wrapper.match_decimal is_decimal) num2words_float
      (re_sub (Wrapper.match_cardinal is_decimal) num2words_int text).
Proof. reflexivity. Qed.

Hypothesis words_digit_free : forall d, digit_free (num2words_int d) = true.

Lemma cardinal_pass_digit_free skip s :
  digit_free (sub_aux (Wrapper.match_cardinal is_decimal) num2words_int skip s)
  = true.
Proof.
  revert skip. induction s as [|c r IH]; intros skip; [reflexivity|].
  destruct skip as [|k]; [|apply IH].
  cbn [sub_aux].
  destruct (Wrapper.match_cardinal is_decimal (c :: r)) as [[|n]|] eqn:Hm.
  - unfold Wrapper.match_cardinal in Hm.
    destruct (span_len is_decimal (c :: r)); discriminate.
  - rewrite digit_free_app, words_digit_free, IH. reflexivity.
  - unfold Wrapper.match_cardinal in Hm. simpl in Hm.
    cbn [Spec.digit_free forallb]. fold (digit_free (sub_aux
      (Wrapper.match_cardinal is_decimal) num2words_int 0 r)).
    rewrite IH. destruct (is_decimal c); [discriminate|reflexivity].
Qed.

Lemma normalize_numbers_fixes_digit_free s :
  digit_free s = true -> normalize_numbers s = s.
Proof.
  intros Hdf. rewrite normalize_numbers_passes. unfold re_sub.
  rewrite (sub_aux_no_match _ _ s (digit_free_never_cardinal s Hdf)).
  apply sub_aux_no_match, digit_free_never_decimal, Hdf.
Qed.

Lemma normalize_numbers_digit_free text :
  digit_free (normalize_numbers text) = true.
Proof.
  rewrite normalize_numbers_passes. unfold re_sub at 1.
  rewrite sub_aux_no_match.
  - apply cardinal_pass_digit_free.
  - apply digit_free_never_decimal, cardinal_pass_digit_free.
Qed.

(** C9. When the words of the speller have no digits, no digit is left
    after one pass, and a second pass changes nothing. *)
Theorem normalize_numbers_idempotent (text : str) :
  digit_free (normalize_numbers text) = true
  /\ normalize_numbers (normalize_numbers text) = normalize_numbers text.
Proof.
  split.
  - apply normalize_numbers_digit_free.
  - apply normalize_numbers_fixes_digit_free, normalize_numbers_digit_free.
Qed.

(** C3, on the code: the cardinal pattern is the first of the list, so on
    [2.5] the two digits are spelled one by one around the dot and the
    decimal pattern, applied second, finds nothing; applied to [2.5]
    itself, the decimal pattern would have matched all of it.  The legacy
    function is the same. *)
Theorem normalize_numbers_splits_decimal :
  is_decimal 50%N = true -> is_decimal 53%N = true -> is_decimal 46%N = false ->
  normalize_numbers (u "2.5")
  = num2words_int (u "2") ++ u "." ++ num2words_int (u "5")
  /\ Legacy.normalize_numbers is_decimal num2words_int num2words_float (u "2.5")
     = num2words_int (u "2") ++ u "." ++ num2words_int (u "5")
  /\ re_sub (Wrapper.match_decimal is_decimal) num2words_float (u "2.5")
     = num2words_float (u "2.5").
Proof.
  intros H2 H5 Hdot.
  assert (Hpass1 :
    re_sub (Wrapper.match_cardinal is_decimal) num2words_int (u "2.5")
    = num2words_int (u "2") ++ u "." ++ num2words_int (u "5")).
  { change (u "2.5") with [50; 46; 53]%N. change (u "2") with [50%N].
    change (u "5") with [53%N]. change (u ".") with [46%N].
    unfold re_sub, Wrapper.match_cardinal. simpl.
    rewrite H2, Hdot. simpl. rewrite H5. simpl.
    now rewrite app_nil_r. }
  assert (Hnorm : normalize_numbers (u "2.5")
    = num2words_int (u "2") ++ u "." ++ num2words_int (u "5")).
  { rewrite normalize_numbers_passes, Hpass1. unfold re_sub.
    apply sub_aux_no_match, digit_free_never_decimal.
    rewrite !digit_free_app, !words_digit_free.
    change (u ".") with [46%N]. simpl. now rewrite Hdot. }
  split; [exact Hnorm|]. split; [exact Hnorm|].
  change (u "2.5") with [50; 46; 53]%N.
  unfold re_sub, Wrapper.match_decimal. simpl.
  rewrite H2, Hdot. simpl. rewrite H5. simpl. now rewrite app_nil_r.
Qed.

End NumbersFacts.

(** The properties on ASCII digits and a speller with one word. *)
Lemma normalize_numbers_idempotent_witness :
  Spec.digit_free Examples.ascii_digit
    (Wrapper.normalize_numbers Examples.ascii_digit Examples.one_word
       Examples.one_word (u "Tôi có 2 con mèo")) = true
  /\ Wrapper.normalize_numbers Examples.ascii_digit Examples.one_word
       Examples.one_word
       (Wrapper.normalize_numbers Examples.ascii_digit Examples.one_word
          Examples.one_word (u "Tôi có 2 con mèo"))
     = Wrapper.normalize_numbers Examples.ascii_digit Examples.one_word
         Examples.one_word (u "Tôi có 2 con mèo").
Proof.
  apply (normalize_numbers_idempotent Examples.ascii_digit Examples.one_word
           Examples.one_word).
  intros d. reflexivity.
Defined.

Lemma normalize_numbers_splits_decimal_witness :
  Wrapper.normalize_numbers Examples.ascii_digit Examples.one_word
    Examples.one_word (u "2.5") = u "số.số".
Proof.
  apply (normalize_numbers_splits_decimal Examples.ascii_digit Examples.one_word
           Examples.one_word); reflexivity.
Defined.

(** ** Strings *)

Section StripFacts.

Variable p : char -> bool.

Lemma drop_while_app a b :
  drop_while p (a ++ b)
  = match drop_while p a with
    | [] => drop_while p b
    | r => r ++ b
    end.
Proof.
  induction a as [|c a IH]; simpl; [now destruct (drop_while p b)|].
  destruct (p c); [exact IH|reflexivity].
Qed.

Lemma drop_while_head c r : drop_while p (c :: r) = c :: r \/ p c = true.
Proof. simpl. destruct (p c); auto. Qed.

Lemma drop_while_nonempty_head s c r : drop_while p s = c :: r -> p c = false.
Proof.
  induction s as [|d s IH]; simpl; [discriminate|].
  destruct (p d) eqn:Hd; [exact IH|]. now intros [= <- _].
Qed.

Lemma drop_while_id c r : p c = false -> drop_while p (c :: r) = c :: r.
Proof. simpl. now intros ->. Qed.

(** [rstrip], read from the left. *)
Lemma rstrip_by_cons c s :
  rstrip_by p (c :: s)
  = match rstrip_by p s with
    | [] => if p c then [] else [c]
    | r => c :: r
    end.
Proof.
  unfold rstrip_by. simpl rev. rewrite drop_while_app.
  destruct (drop_while p (rev s)) as [|d r] eqn:Hd; simpl.
  - now destruct (p c).
  - rewrite rev_app_distr. simpl.
    destruct (rev r ++ [d]) eqn:Hr; [now destruct (rev r)|reflexivity].
Qed.

Lemma rstrip_by_nil : rstrip_by p [] = [].
Proof. reflexivity. Qed.

Lemma rstrip_by_keeps_head c s :
  p c = false -> rstrip_by p (c :: s) = c :: rstrip_by p s.
Proof. intros Hc. rewrite rstrip_by_cons, Hc. now destruct (rstrip_by p s). Qed.

Lemma rstrip_by_last s c : rstrip_by p (s ++ [c]) = s ++ [c] \/ p c = true.
Proof.
  unfold rstrip_by. rewrite rev_app_distr. simpl.
  destruct (p c); [now right|left].
  now rewrite <- (rev_involutive (s ++ [c])), rev_app_distr.
Qed.

Lemma rstrip_by_snoc_keep s c :
  p c = false -> rstrip_by p (s ++ [c]) = s ++ [c].
Proof. intros Hc. destruct (rstrip_by_last s c) as [H|H]; [exact H|congruence]. Qed.

Lemma rstrip_by_idem s : rstrip_by p (rstrip_by p s) = rstrip_by p s.
Proof.
  induction s as [|c s IH]; [reflexivity|].
  rewrite rstrip_by_cons.
  destruct (rstrip_by p s) as [|d r] eqn:Hr.
  - destruct (p c) eqn:Hc; [reflexivity|].
    rewrite rstrip_by_cons, Hc. reflexivity.
  - rewrite rstrip_by_cons, IH. reflexivity.
Qed.

Lemma strip_by_head c r s : strip_by p s = c :: r -> p c = false.
Proof.
  unfold strip_by, lstrip_by. intros Hs.
  destruct (drop_while p s) as [|d t] eqn:Hd; [discriminate|].
  pose proof (drop_while_nonempty_head _ _ _ Hd) as Hpd.
  rewrite (rstrip_by_keeps_head _ _ Hpd) in Hs. now injection Hs as <- _.
Qed.

Lemma strip_by_idem s : strip_by p (strip_by p s) = strip_by p s.
Proof.
  destruct (strip_by p s) as [|c r] eqn:Hs; [reflexivity|].
  pose proof (strip_by_head _ _ _ Hs) as Hc.
  unfold strip_by at 1. unfold lstrip_by. rewrite (drop_while_id _ _ Hc).
  rewrite <- Hs. unfold strip_by. apply rstrip_by_idem.
Qed.

Lemma drop_while_length s : (length (drop_while p s) <= length s)%nat.
Proof.
  induction s as [|c s IH]; simpl; [lia|]. destruct (p c); simpl; lia.
Qed.

Lemma strip_by_length s : (length (strip_by p s) <= length s)%nat.
Proof.
  unfold strip_by, rstrip_by, lstrip_by. rewrite length_rev.
  etransitivity; [apply drop_while_length|]. rewrite length_rev.
  apply drop_while_length.
Qed.

Lemma drop_while_forallb (q : char -> bool) s :
  forallb q s = true -> forallb q (drop_while p s) = true.
Proof.
  induction s as [|c s IH]; simpl; [easy|].
  intros [Hc Hs]%andb_true_iff. destruct (p c); [auto|].
  simpl. now rewrite Hc, Hs.
Qed.

Lemma forallb_rev (q : char -> bool) s : forallb q (rev s) = forallb q s.
Proof.
  induction s as [|c s IH]; simpl; [reflexivity|].
  rewrite forallb_app, IH. simpl. rewrite andb_true_r. apply andb_comm.
Qed.

Lemma strip_by_forallb (q : char -> bool) s :
  forallb q s = true -> forallb q (strip_by p s) = true.
Proof.
  intros Hs. unfold strip_by, rstrip_by, lstrip_by.
  rewrite forallb_rev. apply drop_while_forallb. rewrite forallb_rev.
  now apply drop_while_forallb.
Qed.

End StripFacts.

Section BlankFacts.

Lemma strip_nonempty_not_blank s : strip s <> [] -> Spec.blank (strip s) = false.
Proof.
  destruct (strip s) as [|c r] eqn:Hs; [easy|]. intros _.
  unfold strip in Hs. apply strip_by_head in Hs. simpl. now rewrite Hs.
Qed.

Lemma not_blank_drop_while s :
  Spec.blank s = false -> exists c r, drop_while is_space s = c :: r.
Proof.
  induction s as [|c s IH]; simpl; [discriminate|].
  destruct (is_space c) eqn:Hc; simpl; [exact IH|]. intros _. now exists c, s.
Qed.

Lemma not_blank_strip s : Spec.blank s = false -> strip s <> [].
Proof.
  intros Hb. destruct (not_blank_drop_while s Hb) as (c & r & Hd).
  unfold strip, strip_by, lstrip_by. rewrite Hd.
  rewrite rstrip_by_keeps_head by exact (drop_while_nonempty_head _ _ _ _ Hd).
  discriminate.
Qed.

Lemma not_blank_strip_not_blank s :
  Spec.blank s = false -> Spec.blank (strip s) = false.
Proof. intros Hb. now apply strip_nonempty_not_blank, not_blank_strip. Qed.

Lemma strip_len s : len (strip s) <= len s.
Proof. unfold len, strip. pose proof (strip_by_length is_space s). lia. Qed.

Lemma strip_idem s : strip (strip s) = strip s.
Proof. apply strip_by_idem. Qed.

(** Putting the dots back for the token keeps a sentence from being blank. *)
Lemma replace_token_not_blank s :
  strip s <> [] ->
  Spec.blank (replace Wrapper.ELLIPSIS_TOKEN (u "...") (strip s)) = false.
Proof.
  intros Hne. destruct (strip s) as [|c r] eqn:Hs; [easy|].
  unfold strip in Hs. apply strip_by_head in Hs.
  unfold replace. cbn [replace_aux].
  destruct (starts_with Wrapper.ELLIPSIS_TOKEN (c :: r)); [reflexivity|].
  simpl. now rewrite Hs.
Qed.

End BlankFacts.

Section SoftFacts.

Lemma soft_delim_not_space c :
  Wrapper.is_soft_delim c = true -> is_space c = false.
Proof.
  unfold Wrapper.is_soft_delim, char_in. simpl.
  repeat match goal with
         | |- context [N.eqb c ?k] => destruct (N.eqb_spec c k); [subst; reflexivity|]
         end.
  discriminate.
Qed.

Lemma forallb_removelast (q : char -> bool) s :
  forallb q s = true -> forallb q (removelast s) = true.
Proof.
  induction s as [|c s IH]; [easy|]. intros [Hc Hs]%andb_true_iff.
  destruct s as [|d s]; [reflexivity|].
  change (removelast (c :: d :: s)) with (c :: removelast (d :: s)).
  simpl forallb at 1. rewrite Hc. now apply IH.
Qed.

Lemma no_soft_strip_only_last s :
  Spec.no_soft s = true -> Spec.soft_only_last (strip s) = true.
Proof.
  intros Hs. unfold Spec.soft_only_last. apply forallb_removelast.
  now apply strip_by_forallb.
Qed.

Lemma delimited_strip_only_last x d :
  Spec.no_soft x = true -> Wrapper.is_soft_delim d = true ->
  Spec.soft_only_last (strip (x ++ [d])) = true.
Proof.
  intros Hx Hd. pose proof (soft_delim_not_space d Hd) as Hsp.
  assert (Hl : lstrip_by is_space (x ++ [d]) = drop_while is_space x ++ [d]).
  { unfold lstrip_by. rewrite drop_while_app.
    destruct (drop_while is_space x); [|reflexivity]. simpl. now rewrite Hsp. }
  unfold strip, strip_by. rewrite Hl, (rstrip_by_snoc_keep _ _ _ Hsp).
  unfold Spec.soft_only_last. rewrite removelast_last.
  now apply drop_while_forallb.
Qed.

(** Every token that the re-attachment loop produces from the split of a
    sentence has its delimiter, if any, at its end. *)
Lemma merged_tokens_shape cur s :
  Spec.no_soft (rev cur) = true ->
  Forall (fun tok => Spec.soft_only_last (strip (strip tok)) = true)
    (Wrapper.merge_parts (re_split_aux Wrapper.is_soft_delim cur s)).
Proof.
  revert cur. induction s as [|c s IH]; intros cur Hcur.
  - simpl. destruct (is_empty (rev cur)); constructor; [|constructor].
    rewrite !strip_idem. now apply no_soft_strip_only_last.
  - cbn [re_split_aux]. destruct (Wrapper.is_soft_delim c) eqn:Hc.
    + cbn [Wrapper.merge_parts Wrapper.fullmatch_soft]. rewrite Hc.
      apply Forall_app. split; [|now apply IH].
      destruct (is_empty (rev cur ++ [c])); constructor; [|constructor].
      rewrite !strip_idem. now apply delimited_strip_only_last.
    + apply IH. simpl. unfold Spec.no_soft in *. rewrite forallb_app, Hcur.
      simpl. now rewrite Hc.
Qed.

End SoftFacts.

Section JoinFacts.

Variable sep : str.

Lemma join_snoc b t :
  join sep (b ++ [t]) = match b with [] => t | _ => join sep b ++ sep ++ t end.
Proof.
  induction b as [|x b IH]; [reflexivity|].
  destruct b as [|y b]; [reflexivity|].
  change ((x :: y :: b) ++ [t]) with (x :: (y :: b) ++ [t]).
  change (join sep (x :: (y :: b) ++ [t]))
    with (x ++ sep ++ join sep ((y :: b) ++ [t])).
  rewrite IH. change (join sep (x :: y :: b)) with (x ++ sep ++ join sep (y :: b)).
  now rewrite <- !app_assoc.
Qed.

Lemma join_nonempty b :
  b <> [] -> Forall (fun t => t <> []) b -> join sep b <> [].
Proof.
  destruct b as [|x b]; [easy|]. intros _ Hall. inversion Hall; subst.
  destruct b; simpl; [assumption|]. now destruct x.
Qed.

Lemma join_removelast_length b :
  (length (join sep (removelast b)) <= length (join sep b))%nat.
Proof.
  destruct b as [|t b _] using rev_ind; [simpl; lia|].
  rewrite removelast_last, join_snoc.
  destruct b; [simpl; lia|]. rewrite !length_app. lia.
Qed.

End JoinFacts.

(** ** The packing loop *)

Section PackFacts.

Variable lower : str -> str.
Variable max_len : Z.
Variable language : str.

Local Abbreviation good := (Spec.bounded_or_one_token max_len).

Local Abbreviation fits_or_single := (Spec.fits_or_single max_len).
Local Abbreviation buffer_inv := (Spec.buffer_inv max_len).

Lemma flush_good buffer out :
  fits_or_single buffer -> Wrapper.flush buffer = Some out -> good out.
Proof.
  unfold Wrapper.flush. intros Hfit Hflush.
  destruct (strip (join (u " ") buffer)) as [|c r] eqn:Hs; [discriminate|].
  injection Hflush as <-. rewrite <- Hs. split.
  - destruct Hfit as [->|[Hle|(t & -> & Ht)]].
    + discriminate.
    + left. pose proof (strip_len (join (u " ") buffer)). lia.
    + right. exact Ht.
  - apply strip_nonempty_not_blank. now rewrite Hs.
Qed.

Lemma flush_removelast_good buffer out :
  fits_or_single buffer ->
  Wrapper.flush (removelast buffer) = Some out -> good out.
Proof.
  intros [->|[Hle|(t & -> & _)]] Hflush; [discriminate| |discriminate].
  apply (flush_good (removelast buffer)); [|exact Hflush].
  right. left. pose proof (join_removelast_length (u " ") buffer). unfold len in *. lia.
Qed.

Lemma join_snoc_len buffer t :
  Forall (fun t => t <> []) buffer ->
  len (join (u " ") (buffer ++ [t]))
  = len (join (u " ") buffer)
    + (if 0 <? len (join (u " ") buffer) then 1 else 0) + len t.
Proof.
  intros Hall. rewrite join_snoc. destruct buffer as [|x b]; [reflexivity|].
  pose proof (join_nonempty (u " ") (x :: b) ltac:(discriminate) Hall) as Hne.
  unfold len. rewrite !length_app.
  destruct (join (u " ") (x :: b)) as [|c r]; [easy|].
  change (length (u " ")) with 1%nat.
  destruct (Z.ltb_spec 0 (Z.of_nat (length (c :: r)))); simpl length in *; lia.
Qed.

Lemma pack_step_inv chunks buffer current_len tok chunks' buffer' current_len' :
  Forall good chunks -> buffer_inv buffer current_len ->
  Spec.soft_only_last (strip (strip tok)) = true ->
  Wrapper.pack_step lower max_len language (chunks, buffer, current_len) tok
  = (chunks', buffer', current_len') ->
  Forall good chunks' /\ buffer_inv buffer' current_len'.
Proof.
  intros Hchunks (Hne & Hlen & Hfit) Htok. unfold Wrapper.pack_step.
  destruct (strip tok) as [|c r] eqn:Hts.
  { simpl. intros [= <- <- <-]. split; [assumption|]. now split. }
  cbn [is_empty]. rewrite <- Hts.
  destruct (Wrapper.smart_can_add max_len (strip tok) current_len) eqn:Hadd.
  - intros [= <- <- <-]. split; [assumption|].
    assert (Hne' : Forall (fun t => t <> []) (buffer ++ [strip tok])).
    { apply Forall_app. split; [assumption|]. constructor; [|constructor].
      rewrite Hts. discriminate. }
    assert (Hlen' : current_len + (if 0 <? current_len then 1 else 0)
                    + len (strip tok)
                    = len (join (u " ") (buffer ++ [strip tok]))).
    { rewrite (join_snoc_len _ _ Hne), <- Hlen. reflexivity. }
    split; [exact Hne'|]. split; [exact Hlen'|]. right. left.
    unfold Wrapper.smart_can_add in Hadd. apply Z.leb_le in Hadd. lia.
  - intros [= <- <- <-]. split.
    + destruct (last buffer) as [l|];
        [destruct (Wrapper.defers lower language l)|].
      * destruct (Wrapper.flush (removelast buffer)) as [out|] eqn:Hf; [|assumption].
        apply Forall_app. split; [assumption|]. constructor; [|constructor].
        now apply (flush_removelast_good buffer).
      * destruct (Wrapper.flush buffer) as [out|] eqn:Hf; [|assumption].
        apply Forall_app. split; [assumption|]. constructor; [|constructor].
        now apply (flush_good buffer).
      * destruct (Wrapper.flush buffer) as [out|] eqn:Hf; [|assumption].
        apply Forall_app. split; [assumption|]. constructor; [|constructor].
        now apply (flush_good buffer).
    + split; [|split].
      * constructor; [|constructor]. rewrite Hts. discriminate.
      * reflexivity.
      * right. right. exists (strip tok). split; [reflexivity|].
        rewrite Hts. exact Htok.
Qed.

Lemma pack_loop_inv merged chunks buffer current_len chunks' buffer' current_len' :
  Forall (fun tok => Spec.soft_only_last (strip (strip tok)) = true) merged ->
  Forall good chunks -> buffer_inv buffer current_len ->
  fold_left (Wrapper.pack_step lower max_len language) merged
    (chunks, buffer, current_len) = (chunks', buffer', current_len') ->
  Forall good chunks' /\ buffer_inv buffer' current_len'.
Proof.
  revert chunks buffer current_len.
  induction merged as [|tok merged IH]; intros chunks buffer current_len Hm Hc Hb.
  - simpl. intros [= <- <- <-]. now split.
  - inversion Hm as [|? ? Htok Hrest]; subst. cbn [fold_left].
    destruct (Wrapper.pack_step lower max_len language
                (chunks, buffer, current_len) tok) as [[c1 b1] l1] eqn:Hstep.
    destruct (pack_step_inv _ _ _ _ _ _ _ Hc Hb Htok Hstep) as [Hc1 Hb1].
    now apply IH.
Qed.

(** The body of the loop over the base sentences keeps every chunk within
    the bound or made of one token. *)
Lemma chunk_sentence_good chunks sent :
  Forall good chunks -> Spec.blank sent = false ->
  Forall good (Wrapper.chunk_sentence lower max_len language chunks sent).
Proof.
  intros Hc Hsent. unfold Wrapper.chunk_sentence.
  destruct (Z.leb_spec (len (strip sent)) max_len) as [Hle|Hgt].
  - apply Forall_app. split; [assumption|]. constructor; [|constructor].
    split; [now left|]. now apply not_blank_strip_not_blank.
  - destruct (fold_left _ _ _) as [[c1 b1] l1] eqn:Hfold.
    assert (Hinv : Forall good c1 /\ buffer_inv b1 l1).
    { apply (pack_loop_inv _ _ _ _ _ _ _
               (merged_tokens_shape [] (strip sent) eq_refl) Hc) in Hfold;
        [exact Hfold|].
      split; [constructor|]. split; [reflexivity|]. now left. }
    destruct Hinv as [Hc1 (_ & _ & Hfit)].
    destruct (Wrapper.flush b1) as [out|] eqn:Hf; [|assumption].
    apply Forall_app. split; [assumption|]. constructor; [|constructor].
    now apply (flush_good b1).
Qed.

End PackFacts.

(** ** split_into_sentences: the bound on chunks *)

Section SegmenterBound.

Variable lower : str -> str.

Lemma base_loop_not_blank text ms start base :
  Forall (fun b => Spec.blank b = false) base ->
  Forall (fun b => Spec.blank b = false)
    (snd (fold_left (Wrapper.base_step text) ms (start, base))).
Proof.
  revert start base. induction ms as [|mt ms IH]; intros start base Hb; [exact Hb|].
  cbn [fold_left]. unfold Wrapper.base_step at 2. apply IH.
  destruct (strip (slice start (snd mt) text)) as [|c r] eqn:Hs; [exact Hb|].
  cbn [is_empty]. apply Forall_app. split; [exact Hb|].
  constructor; [|constructor]. rewrite <- Hs.
  apply replace_token_not_blank. now rewrite Hs.
Qed.

Lemma base_sentences_not_blank text :
  Forall (fun b => Spec.blank b = false) (Wrapper.base_sentences_of text).
Proof.
  unfold Wrapper.base_sentences_of.
  pose proof (base_loop_not_blank text
                (finditer Wrapper.boundary_pattern text) O [] (List.Forall_nil _)) as Hb.
  destruct (fold_left _ _ _) as [start base]. simpl in Hb.
  destruct (strip (skipn start text)) as [|c r] eqn:Hs; [exact Hb|].
  cbn [is_empty]. apply Forall_app. split; [exact Hb|].
  constructor; [|constructor]. rewrite <- Hs.
  apply replace_token_not_blank. now rewrite Hs.
Qed.

Lemma chunk_loop_good max_len language sents chunks :
  Forall (fun b => Spec.blank b = false) sents ->
  Forall (Spec.bounded_or_one_token max_len) chunks ->
  Forall (Spec.bounded_or_one_token max_len)
    (fold_left (Wrapper.chunk_sentence lower max_len language) sents chunks).
Proof.
  revert chunks. induction sents as [|sent sents IH]; intros chunks Hs Hc; [exact Hc|].
  inversion Hs; subst. cbn [fold_left]. apply IH; [assumption|].
  now apply chunk_sentence_good.
Qed.

(** C4, as amended.  Every chunk either has at most [max_len] characters or
    has no soft delimiter before its last character (it is one token, with
    the delimiter that ends it), and no chunk is empty or made of whitespace
    only; this for every [max_len]. *)
Theorem split_into_sentences_chunks_bounded
  (paragraph : str) (max_len : Z) (language : str) :
  Forall (Spec.bounded_or_one_token max_len)
    (Wrapper.split_into_sentences lower paragraph max_len language).
Proof.
  unfold Wrapper.split_into_sentences.
  destruct (is_empty paragraph); [constructor|].
  apply chunk_loop_good; [apply base_sentences_not_blank|constructor].
Qed.

End SegmenterBound.

(** C4, as stated, fails: with [max_len = 5] the first chunk of
    [aaaaaaaa,b] has nine characters and ends in a comma. *)
Lemma split_into_sentences_long_token_has_delimiter :
  Wrapper.split_into_sentences Examples.lower_ascii (u "aaaaaaaa,b") 5 (u "vi")
  = [u "aaaaaaaa,"; u "b"]
  /\ ~ Forall (Spec.bounded_or_undelimited 5)
         (Wrapper.split_into_sentences Examples.lower_ascii
            (u "aaaaaaaa,b") 5 (u "vi")).
Proof.
  assert (Heq : Wrapper.split_into_sentences Examples.lower_ascii
                  (u "aaaaaaaa,b") 5 (u "vi") = [u "aaaaaaaa,"; u "b"])
    by (vm_compute; reflexivity).
  split; [exact Heq|]. rewrite Heq. intros Hall.
  inversion Hall as [|? ? [[Hle|Hsoft] _] _]; subst.
  - vm_compute in Hle. now apply Hle.
  - vm_compute in Hsoft. discriminate.
Qed.

(** C1, on the code: the token that is moved away from the end of a full
    buffer is in no chunk.  With [max_len = 8], the conjunction of
    [abc, và, def] is lost; with [max_len = 3], so is the bare comma of
    [a,,b - c]. *)
Theorem split_into_sentences_drops_deferred_token :
  Wrapper.split_into_sentences Examples.lower_ascii (u "abc, và, def") 8 (u "vi")
  = [u "abc,"; u "def"]
  /\ str_in (u "và")
       (join (u " ")
          (Wrapper.split_into_sentences Examples.lower_ascii
             (u "abc, và, def") 8 (u "vi"))) = false
  /\ Wrapper.split_into_sentences Examples.lower_ascii (u "a,,b - c") 3 (u "vi")
     = [u "a,"; u "b -"; u "c"].
Proof.
  split; [vm_compute; reflexivity|].
  split; [vm_compute; reflexivity|].
  vm_compute; reflexivity.
Qed.

(** ** paragraph_to_audio *)

Section KeyFacts.

Lemma digits_of_uint_inj d d' :
  digits_of_uint d = digits_of_uint d' -> d = d'.
Proof.
  revert d'. induction d; destruct d'; simpl; intros Heq;
    try discriminate; try reflexivity;
    injection Heq as Heq; f_equal; auto.
Qed.

Lemma str_of_nat_inj n n' : str_of_nat n = str_of_nat n' -> n = n'.
Proof.
  intros Heq. apply DecimalNat.Unsigned.to_uint_inj.
  now apply digits_of_uint_inj.
Qed.

Lemma digits_of_uint_no_underscore d :
  forallb (fun c => negb (c =? 95)%N) (digits_of_uint d) = true.
Proof. induction d; simpl; auto. Qed.

Lemma underscore_split a b x y :
  forallb (fun c => negb (c =? 95)%N) a = true ->
  forallb (fun c => negb (c =? 95)%N) b = true ->
  a ++ 95%N :: x = b ++ 95%N :: y -> a = b.
Proof.
  revert b. induction a as [|c a IH]; intros [|d b] Ha Hb Heq; simpl in *.
  - reflexivity.
  - injection Heq as <- _. now rewrite N.eqb_refl in Hb.
  - injection Heq as -> _. now rewrite N.eqb_refl in Ha.
  - injection Heq as <- Heq. f_equal.
    apply andb_true_iff in Ha as [_ Ha]. apply andb_true_iff in Hb as [_ Hb].
    now apply IH.
Qed.

(** The name of an audio determines the index it was built from. *)
Lemma audio_name_index K i s j s' :
  Wrapper.audio_name K i s = Wrapper.audio_name K j s' -> i = j.
Proof.
  unfold Wrapper.audio_name. change (u "_") with [95%N]. simpl. intros Heq.
  apply str_of_nat_inj.
  eapply underscore_split; [apply digits_of_uint_no_underscore ..|exact Heq].
Qed.

Lemma dict_set_fresh {V} (k : str) (v : V) d :
  k ∉ map fst d -> Wrapper.dict_set k v d = d ++ [(k, v)].
Proof.
  induction d as [|[k' v'] d IH]; simpl; [reflexivity|].
  intros Hnot. destruct (decide (k = k')) as [->|Hne].
  - exfalso. apply Hnot. left.
  - f_equal. apply IH. intros Hin. apply Hnot. now right.
Qed.

End KeyFacts.

Section PipelineFacts.

Context {F : PyFloat}.
Variable lower : str -> str.
Variable is_decimal : char -> bool.
Variable num2words_int : str -> str.
Variable num2words_float : str -> str.
Variable sample : Type.
Variable rms : list sample -> Z -> Z -> list float.
Variable getenv : string -> option str.
Variable DEFAULT_SAMPLE_RATE : Z.
Variable DEFAULT_OUTPUT_FILE_LENGTH : Z.
Variable inference : str -> str -> Wrapper.Params -> result (list sample).
Variable language : str.

Local Abbreviation call_of :=
  (fun item : nat * str =>
     Spec.expected_call lower is_decimal num2words_int num2words_float
       language (snd item)).
Local Abbreviation synth :=
  (Spec.synthesize_and_trim lower is_decimal num2words_int num2words_float
     sample rms getenv DEFAULT_SAMPLE_RATE inference language).
Local Abbreviation name_of :=
  (fun item : nat * str =>
     Wrapper.audio_name DEFAULT_OUTPUT_FILE_LENGTH (fst item) (snd item)).
Local Abbreviation process :=
  (Wrapper.process_sentences lower is_decimal num2words_int num2words_float
     sample rms getenv DEFAULT_SAMPLE_RATE DEFAULT_OUTPUT_FILE_LENGTH inference
     language).

Lemma fine_tune_audio_default_rate wav :
  Wrapper.fine_tune_audio sample rms getenv DEFAULT_SAMPLE_RATE wav
    {[ "sample_rate"%string := DEFAULT_SAMPLE_RATE ]}
  = (keep_silence ←
       float_of_str (default (u "0.2") (getenv "XTTS_KEEP_SILENCE_DURATION"));
     Wrapper.trim_silence sample rms wav DEFAULT_SAMPLE_RATE (float_lit 0.01)
       2048 512 keep_silence).
Proof.
  unfold Wrapper.fine_tune_audio. rewrite lookup_singleton_eq. reflexivity.
Qed.

(** The loop from index [a] on, started on a map whose names all come from
    smaller indices. *)
Lemma process_from xs :
  forall a audio_map calls calls' res,
  (forall k, k ∈ map fst audio_map ->
     exists j s, k = Wrapper.audio_name DEFAULT_OUTPUT_FILE_LENGTH j s /\ (j < a)%nat) ->
  process (combine (seq a (length xs)) xs) audio_map calls = (calls', res) ->
  (exists n, calls' = calls ++ map call_of
                        (take n (Spec.kept (combine (seq a (length xs)) xs))))
  /\ (forall am, res = Ok am ->
        calls' = calls ++ map call_of (Spec.kept (combine (seq a (length xs)) xs))
        /\ exists audios,
             Forall2 (fun item au => synth (snd item) = Ok au)
               (Spec.kept (combine (seq a (length xs)) xs)) audios
             /\ am = audio_map
                     ++ zip_with (fun item au => (name_of item, au))
                          (Spec.kept (combine (seq a (length xs)) xs)) audios)
  /\ (Forall (fun item => exists au, synth (snd item) = Ok au)
        (Spec.kept (combine (seq a (length xs)) xs)) ->
      exists am, res = Ok am).
Proof.
  induction xs as [|s xs IH]; intros a audio_map calls calls' res Hkeys.
  - simpl. intros [= <- <-]. split; [exists O; now rewrite app_nil_r|].
    split; [|intros _; eauto].
    intros am [= <-]. split; [now rewrite app_nil_r|].
    exists []. split; [constructor|now rewrite app_nil_r].
  - cbn [length seq combine Wrapper.process_sentences].
    unfold Spec.kept. cbn [List.filter snd].
    fold (Spec.kept (combine (seq (S a) (length xs)) xs)).
    destruct (strip s) as [|c r] eqn:Hs.
    + cbn [is_empty negb]. intros Hrun. apply IH in Hrun; [exact Hrun|].
      intros k Hk. destruct (Hkeys k Hk) as (j & s' & -> & Hlt).
      exists j, s'. split; [reflexivity|lia].
    + cbn [is_empty negb]. rewrite <- Hs.
      change (Wrapper.normalize_text is_decimal num2words_int num2words_float
                (strip s))
        with (Spec.normalized is_decimal num2words_int num2words_float s).
      set (text := Spec.normalized is_decimal num2words_int num2words_float s).
      set (params := Wrapper.calculate_inference_params lower text).
      assert (Hsynth : synth s
                = (out_wav ← inference text language params;
                   Wrapper.fine_tune_audio sample rms getenv DEFAULT_SAMPLE_RATE
                     out_wav {[ "sample_rate"%string := DEFAULT_SAMPLE_RATE ]})).
      { unfold Spec.synthesize_and_trim. fold text. fold params.
        destruct (inference text language params); simpl; [|reflexivity].
        now rewrite fine_tune_audio_default_rate. }
      change ({| Wrapper.call_text := text; Wrapper.call_language := language;
                 Wrapper.call_params := params |}) with (call_of (a, s)).
      destruct (inference text language params) as [wav|e] eqn:Hinf.
      2:{ intros [= <- <-]. split; [exists 1%nat; reflexivity|].
          split; [discriminate|].
          intros Hall. inversion Hall as [|? ? [au Hau] _]; subst.
          simpl in Hau. rewrite Hsynth in Hau. discriminate. }
      destruct (Wrapper.fine_tune_audio sample rms getenv DEFAULT_SAMPLE_RATE wav
                  {[ "sample_rate"%string := DEFAULT_SAMPLE_RATE ]})
        as [tuned|e] eqn:Hft.
      2:{ intros [= <- <-]. split; [exists 1%nat; reflexivity|].
          split; [discriminate|].
          intros Hall. inversion Hall as [|? ? [au Hau] _]; subst.
          simpl in Hau. rewrite Hsynth in Hau. simpl in Hau.
          rewrite Hft in Hau. discriminate. }
      assert (Hok : synth s = Ok tuned).
      { rewrite Hsynth. simpl. exact Hft. }
      rewrite dict_set_fresh.
      2:{ intros Hin. destruct (Hkeys _ Hin) as (j & s' & Heq & Hlt).
          apply audio_name_index in Heq. lia. }
      intros Hrun. apply IH in Hrun.
      2:{ intros k Hk. rewrite map_app in Hk. apply elem_of_app in Hk as [Hk|Hk].
          - destruct (Hkeys k Hk) as (j & s' & -> & Hlt).
            exists j, s'. split; [reflexivity|lia].
          - apply list_elem_of_singleton in Hk as ->. exists a, s. split; [reflexivity|lia]. }
      destruct Hrun as ((n & Hn) & Hres & Hall).
      split; [exists (S n); rewrite Hn, <- app_assoc; reflexivity|].
      split.
      * intros am Ham. destruct (Hres am Ham) as (Hcalls & audios & Hf2 & Heq).
        split; [rewrite Hcalls, <- app_assoc; reflexivity|].
        exists (tuned :: audios). split; [constructor; assumption|].
        rewrite Heq, <- app_assoc. reflexivity.
      * intros Hall'. apply Hall. now inversion Hall'.
Qed.

Lemma enumerate_indices {A} (xs : list A) a :
  map fst (combine (seq a (length xs)) xs) = seq a (length xs).
Proof.
  revert a. induction xs as [|x xs IH]; intros a; [reflexivity|].
  simpl. now rewrite IH.
Qed.

Lemma names_nodup (items : list (nat * str)) :
  NoDup (map fst items) -> NoDup (map name_of (Spec.kept items)).
Proof.
  induction items as [|item items IH]; simpl; [constructor|].
  intros [Hnot Hnd]%NoDup_cons.
  destruct (negb (is_empty (strip (snd item)))); [|now apply IH].
  simpl. apply NoDup_cons. split; [|now apply IH].
  intros Hin. apply Hnot.
  change (map name_of (Spec.kept items)) with (name_of <$> Spec.kept items) in Hin.
  apply list_elem_of_fmap in Hin as (item' & Heq & Hin').
  apply audio_name_index in Heq. rewrite Heq.
  change (map fst items) with (fst <$> items). apply list_elem_of_fmap_2.
  unfold Spec.kept in Hin'. apply list_elem_of_In, filter_In in Hin' as [Hin' _].
  now apply list_elem_of_In.
Qed.

Lemma zip_names_forall2 (items : list (nat * str)) (audios : list (list sample)) :
  Forall2 (fun item au => synth (snd item) = Ok au) items audios ->
  Forall2 (fun item entry =>
             fst entry = name_of item /\ synth (snd item) = Ok (snd entry))
    items (zip_with (fun item au => (name_of item, au)) items audios)
  /\ map fst (zip_with (fun item au => (name_of item, au)) items audios)
     = map name_of items.
Proof.
  induction 1 as [|item au items audios Hs Hf2 [IH1 IH2]]; simpl.
  - split; [constructor|reflexivity].
  - split; [constructor; [now split|exact IH1]|now rewrite IH2].
Qed.

Lemma segmenter_chunks_kept paragraph max_len :
  Spec.kept (Wrapper.enumerate
               (Wrapper.split_into_sentences lower paragraph max_len language))
  = Wrapper.enumerate
      (Wrapper.split_into_sentences lower paragraph max_len language).
Proof.
  assert (Hgood : Forall (Spec.bounded_or_one_token max_len)
            (Wrapper.split_into_sentences lower paragraph max_len language)).
  { unfold Wrapper.split_into_sentences.
    destruct (is_empty paragraph); [constructor|].
    apply chunk_loop_good; [apply base_sentences_not_blank|constructor]. }
  unfold Wrapper.enumerate.
  generalize 0%nat.
  induction Hgood as [|chunk chunks [_ Hnb] _ IH]; intros a; [reflexivity|].
  simpl. unfold Spec.kept in *. cbn [List.filter snd].
  pose proof (not_blank_strip chunk Hnb) as Hne.
  destruct (strip chunk); [easy|]. cbn [is_empty negb]. now rewrite IH.
Qed.

(** C8. The pipeline is the loop over the enumerated chunks of the raw
    paragraph.  For any list of chunks the loop calls the engine, in order,
    once for each chunk that is not blank, with the normalized text and the
    parameters calculated from it (up to the first failure); when it
    returns, its map has, in order, one entry for each such chunk, named by
    the position of the chunk and the start of its text before
    normalization and holding the trimmed synthesis of the chunk, and no two
    names are equal; it returns whenever synthesis and trimming succeed for
    each chunk.  Blank chunks give no call and no entry; the segmenter emits
    none. *)
Theorem paragraph_to_audio_pipeline (paragraph : str) :
  Wrapper.paragraph_to_audio lower is_decimal num2words_int num2words_float
    sample rms getenv DEFAULT_SAMPLE_RATE DEFAULT_OUTPUT_FILE_LENGTH inference
    paragraph language
  = process (Wrapper.enumerate
               (Wrapper.split_into_sentences lower paragraph 250 language)) [] []
  /\ (forall sentences calls res,
        process (Wrapper.enumerate sentences) [] [] = (calls, res) ->
        calls `prefix_of` map call_of (Spec.kept (Wrapper.enumerate sentences))
        /\ (forall audio_map, res = Ok audio_map ->
              calls = map call_of (Spec.kept (Wrapper.enumerate sentences))
              /\ Forall2 (fun item entry =>
                            fst entry = name_of item
                            /\ synth (snd item) = Ok (snd entry))
                   (Spec.kept (Wrapper.enumerate sentences)) audio_map
              /\ NoDup (map fst audio_map))
        /\ (Forall (fun item => exists au, synth (snd item) = Ok au)
              (Spec.kept (Wrapper.enumerate sentences)) ->
            exists audio_map, res = Ok audio_map))
  /\ Spec.kept (Wrapper.enumerate
                  (Wrapper.split_into_sentences lower paragraph 250 language))
     = Wrapper.enumerate
         (Wrapper.split_into_sentences lower paragraph 250 language).
Proof.
  split; [reflexivity|]. split; [|apply segmenter_chunks_kept].
  intros sentences calls res Hrun. unfold Wrapper.enumerate in *.
  apply process_from in Hrun.
  2:{ intros k Hk. simpl in Hk. now apply elem_of_nil in Hk. }
  destruct Hrun as ((n & Hn) & Hres & Hall). simpl in Hn.
  split; [|split; [|exact Hall]].
  - rewrite Hn. rewrite <- (take_drop n (Spec.kept _)) at 2.
    rewrite map_app. now eexists.
  - intros audio_map Hok.
    destruct (Hres audio_map Hok) as (Hcalls & audios & Hf2 & Ham).
    simpl in Hcalls, Ham. split; [exact Hcalls|].
    destruct (zip_names_forall2 _ _ Hf2) as [Hent Hnames].
    subst audio_map. split; [exact Hent|].
    rewrite Hnames. apply names_nodup.
    rewrite enumerate_indices. apply NoDup_seq.
Qed.

End PipelineFacts.

(** Three chunks, the second blank, through the loop: two calls, two
    entries, named [0_...] and [2_...]. *)
Lemma paragraph_to_audio_pipeline_witness :
  exists calls audio_map,
    Wrapper.process_sentences (F := Examples.QFloat) Examples.lower_ascii
      Examples.ascii_digit Examples.one_word Examples.one_word Z
      Examples.toy_rms Examples.no_env 10 8 Examples.fixed_wave (u "vi")
      (Wrapper.enumerate [u "Tôi có 2 con mèo."; u "  "; u "Chúng rất dễ thương!"])
      [] []
    = (calls, Ok audio_map)
    /\ map Wrapper.call_text calls = [u "Tôi có số con mèo."; u "Chúng rất dễ thương!"]
    /\ map fst audio_map = [u "0_Tôi có 2"; u "2_Chúng rấ"]
    /\ NoDup (map fst audio_map).
Proof.
  eexists. eexists. split; [vm_compute; reflexivity|].
  split; [vm_compute; reflexivity|]. split; [vm_compute; reflexivity|].
  pose proof (paragraph_to_audio_pipeline (F := Examples.QFloat)
                Examples.lower_ascii Examples.ascii_digit Examples.one_word
                Examples.one_word Z Examples.toy_rms Examples.no_env 10 8
                Examples.fixed_wave (u "vi") []) as (_ & Hloop & _).
  refine (proj2 (proj2 (proj1 (proj2
    (Hloop [u "Tôi có 2 con mèo."; u "  "; u "Chúng rất dễ thương!"] _ _ _))
    _ eq_refl))).
  vm_compute. reflexivity.
Defined.

(** ** Words *)

Section WordFacts.

Lemma split_ws_aux_app cur a c b :
  is_space c = true ->
  split_ws_aux cur (a ++ c :: b) = split_ws_aux cur a ++ split_ws b.
Proof.
  intros Hc. revert cur. induction a as [|x a IH]; intros cur; simpl.
  - rewrite Hc. now destruct cur.
  - destruct (is_space x).
    + destruct cur; [apply IH|]. simpl. f_equal. apply IH.
    + apply IH.
Qed.

(** The words on the two sides of a space. *)
Lemma split_ws_app a c b :
  is_space c = true -> split_ws (a ++ c :: b) = split_ws a ++ split_ws b.
Proof. apply split_ws_aux_app. Qed.

Lemma split_ws_space c s : is_space c = true -> split_ws (c :: s) = split_ws s.
Proof. intros Hc. apply (split_ws_app [] c s Hc). Qed.

Lemma split_ws_blank s : Spec.blank s = true -> split_ws s = [].
Proof.
  induction s as [|c s IH]; [reflexivity|]. simpl.
  intros [Hc Hs]%andb_true_iff. rewrite (split_ws_space _ _ Hc). auto.
Qed.

Lemma split_ws_app_blank a t :
  Spec.blank t = true -> split_ws (a ++ t) = split_ws a.
Proof.
  destruct t as [|c t]; [now rewrite app_nil_r|]. simpl.
  intros [Hc Ht]%andb_true_iff.
  now rewrite (split_ws_app _ _ _ Hc), (split_ws_blank _ Ht), app_nil_r.
Qed.

Lemma split_ws_blank_app t a :
  Spec.blank t = true -> split_ws (t ++ a) = split_ws a.
Proof.
  induction t as [|c t IH]; [reflexivity|]. simpl.
  intros [Hc Ht]%andb_true_iff. rewrite (split_ws_space _ _ Hc). auto.
Qed.

Lemma split_ws_aux_word w cur s :
  forallb (fun c => negb (is_space c)) w = true ->
  split_ws_aux cur (w ++ s) = split_ws_aux (rev w ++ cur) s.
Proof.
  revert cur. induction w as [|c w IH]; intros cur; [reflexivity|]. simpl.
  intros [Hc Hw]%andb_true_iff. apply negb_true_iff in Hc. rewrite Hc.
  rewrite (IH _ Hw), <- app_assoc. reflexivity.
Qed.

(** A word is its own only word. *)
Lemma split_ws_word w :
  w <> [] -> forallb (fun c => negb (is_space c)) w = true -> split_ws w = [w].
Proof.
  intros Hne Hw. unfold split_ws.
  rewrite <- (app_nil_r w) at 1. rewrite (split_ws_aux_word _ _ _ Hw), app_nil_r.
  simpl. destruct (rev w) eqn:Hr.
  - apply (f_equal (@rev _)) in Hr. rewrite rev_involutive in Hr. now subst.
  - now rewrite <- Hr, rev_involutive.
Qed.

Lemma drop_while_split (q : char -> bool) s :
  exists pre, s = pre ++ drop_while q s /\ forallb q pre = true.
Proof.
  induction s as [|c s (pre & Hs & Hpre)]; [now exists []|]. simpl.
  destruct (q c) eqn:Hc.
  - exists (c :: pre). simpl. rewrite Hc, Hpre. split; [now f_equal|reflexivity].
  - now exists [].
Qed.

Lemma split_ws_lstrip s : split_ws (lstrip_by is_space s) = split_ws s.
Proof.
  destruct (drop_while_split is_space s) as (pre & Hs & Hpre).
  rewrite Hs at 2. symmetry. now apply split_ws_blank_app.
Qed.

Lemma split_ws_rstrip s : split_ws (rstrip_by is_space s) = split_ws s.
Proof.
  destruct (drop_while_split is_space (rev s)) as (pre & Hs & Hpre).
  assert (Heq : s = rstrip_by is_space s ++ rev pre).
  { unfold rstrip_by. rewrite <- rev_app_distr, <- Hs. now rewrite rev_involutive. }
  rewrite Heq at 2. symmetry. apply split_ws_app_blank.
  unfold Spec.blank. now rewrite forallb_rev.
Qed.

(** Stripping changes no word. *)
Lemma split_ws_strip s : split_ws (strip s) = split_ws s.
Proof.
  unfold strip, strip_by. now rewrite split_ws_rstrip, split_ws_lstrip.
Qed.

Lemma strip_nil_no_words s : strip s = [] -> split_ws s = [].
Proof. intros Hs. now rewrite <- split_ws_strip, Hs. Qed.

(** The words of chunks joined by single spaces are the words of the
    chunks. *)
Lemma split_ws_join xs :
  split_ws (join (u " ") xs) = concat (map split_ws xs).
Proof.
  induction xs as [|x xs IH]; [reflexivity|].
  destruct xs as [|y xs]; [simpl; now rewrite app_nil_r|].
  change (join (u " ") (x :: y :: xs)) with (x ++ 32%N :: join (u " ") (y :: xs)).
  rewrite split_ws_app by reflexivity. rewrite IH. reflexivity.
Qed.

Lemma concat_split_ws_aux cur s :
  concat (split_ws_aux cur s) = rev cur ++ Spec.remove_ws s.
Proof.
  revert cur. induction s as [|c s IH]; intros cur; simpl.
  - destruct cur; simpl; now rewrite ?app_nil_r.
  - destruct (is_space c) eqn:Hc; simpl.
    + destruct cur; simpl; now rewrite IH.
    + rewrite IH. simpl. now rewrite <- app_assoc.
Qed.

(** A text without its whitespace is its words put end to end. *)
Lemma remove_ws_words s : Spec.remove_ws s = concat (split_ws s).
Proof. unfold split_ws. now rewrite concat_split_ws_aux. Qed.

Lemma remove_ws_app a b :
  Spec.remove_ws (a ++ b) = Spec.remove_ws a ++ Spec.remove_ws b.
Proof. apply List.filter_app. Qed.

Lemma remove_ws_strip s : Spec.remove_ws (strip s) = Spec.remove_ws s.
Proof. now rewrite !remove_ws_words, split_ws_strip. Qed.

Lemma remove_ws_join xs :
  Spec.remove_ws (join (u " ") xs) = concat (map Spec.remove_ws xs).
Proof.
  rewrite remove_ws_words, split_ws_join.
  induction xs as [|x xs IH]; [reflexivity|].
  simpl. now rewrite concat_app, IH, remove_ws_words.
Qed.

End WordFacts.

(** ** Replacement and words *)

Section ReplaceFacts.

Local Abbreviation word := (forallb (fun c => negb (is_space c))).

Lemma starts_with_before_space p a c s :
  word p = true -> is_space c = true ->
  starts_with p (a ++ c :: s) = starts_with p a.
Proof.
  intros Hp Hc. revert a. induction p as [|x p IH]; intros a.
  - now destruct a.
  - simpl in Hp. apply andb_true_iff in Hp as [Hx Hp].
    destruct a as [|y a]; simpl.
    + destruct (N.eqb_spec x c) as [->|]; [|reflexivity].
      rewrite Hc in Hx. discriminate.
    + now rewrite (IH Hp).
Qed.

Lemma starts_with_length p a :
  starts_with p a = true -> (length p <= length a)%nat.
Proof.
  revert a. induction p as [|x p IH]; intros [|y a]; simpl; try lia; try discriminate.
  intros [_ H]%andb_true_iff. apply IH in H. lia.
Qed.

Variable old new : str.
Hypothesis old_nonempty : old <> [].
Hypothesis old_word : word old = true.
Hypothesis new_nonempty : new <> [].
Hypothesis new_word : word new = true.

Lemma replace_aux_before_space a c s skip :
  is_space c = true -> (skip <= length a)%nat ->
  replace_aux old new skip (a ++ c :: s)
  = replace_aux old new skip a ++ c :: replace_aux old new 0 s.
Proof.
  intros Hc. revert skip. induction a as [|x a IH]; intros skip Hskip.
  - simpl in Hskip. assert (skip = O) as -> by lia.
    cbn [app replace_aux].
    pose proof (starts_with_before_space old [] c s old_word Hc) as Hst.
    cbn [app] in Hst. rewrite Hst.
    destruct old; [easy|reflexivity].
  - destruct skip as [|k]; cbn [app replace_aux].
    + change (x :: a ++ c :: s) with ((x :: a) ++ c :: s).
      rewrite (starts_with_before_space old (x :: a) c s old_word Hc).
      destruct (starts_with old (x :: a)) eqn:Hst.
      * apply starts_with_length in Hst. simpl in Hst.
        rewrite IH by lia. now rewrite <- app_assoc.
      * rewrite IH by lia. reflexivity.
    + apply IH. simpl in Hskip. lia.
Qed.

(** Replacement goes through a space. *)
Lemma replace_before_space a c s :
  is_space c = true ->
  replace old new (a ++ c :: s) = replace old new a ++ c :: replace old new s.
Proof. intros Hc. apply replace_aux_before_space; [exact Hc|lia]. Qed.

Lemma replace_aux_word s skip :
  word s = true -> word (replace_aux old new skip s) = true.
Proof.
  revert skip. induction s as [|c s IH]; intros skip; [reflexivity|]. simpl.
  intros [Hc Hs]%andb_true_iff. destruct skip; [|now apply IH].
  destruct (starts_with old (c :: s)).
  - rewrite forallb_app, new_word. now apply IH.
  - simpl. rewrite Hc. now apply IH.
Qed.

Lemma replace_nonempty s : s <> [] -> replace old new s <> [].
Proof.
  destruct s as [|c s]; [easy|]. intros _. unfold replace. simpl.
  destruct (starts_with old (c :: s)); [|discriminate].
  destruct new; [easy|discriminate].
Qed.

Lemma split_ws_replace_word w :
  word w = true ->
  split_ws (replace old new w) = map (replace old new) (split_ws w).
Proof.
  intros Hw. destruct w as [|c w]; [reflexivity|].
  rewrite (split_ws_word (c :: w)) by (easy || exact Hw).
  simpl. apply split_ws_word.
  - now apply replace_nonempty.
  - now apply replace_aux_word.
Qed.

Lemma split_ws_replace_from a s :
  word a = true ->
  split_ws (replace old new (a ++ s))
  = map (replace old new) (split_ws (a ++ s)).
Proof.
  revert a. induction s as [|c s IH]; intros a Ha.
  - rewrite app_nil_r. now apply split_ws_replace_word.
  - destruct (is_space c) eqn:Hc.
    + rewrite (replace_before_space _ _ _ Hc), !(split_ws_app _ _ _ Hc), map_app.
      rewrite (split_ws_replace_word a Ha). f_equal. apply (IH [] eq_refl).
    + change (a ++ c :: s) with (a ++ [c] ++ s). rewrite app_assoc.
      apply IH. rewrite forallb_app, Ha. simpl. now rewrite Hc.
Qed.

(** The words of a text after a replacement are the words of the text,
    each after the replacement. *)
Lemma split_ws_replace s :
  split_ws (replace old new s) = map (replace old new) (split_ws s).
Proof. apply (split_ws_replace_from [] s eq_refl). Qed.

End ReplaceFacts.

(** ** The sentence boundaries *)

Section BoundaryFacts.

Lemma span_len_le q t : (span_len q t <= length t)%nat.
Proof. induction t as [|c t IH]; simpl; [lia|]. destruct (q c); simpl; lia. Qed.

Lemma span_len_lookup q t j :
  (j < span_len q t)%nat -> exists c, t !! j = Some c /\ q c = true.
Proof.
  revert j. induction t as [|c t IH]; intros j; simpl; [lia|].
  destruct (q c) eqn:Hc; [|lia]. destruct j as [|j]; [now exists c|].
  intros Hj. apply IH. lia.
Qed.

(** A boundary is not empty, lies within the text and ends in a space. *)
Lemma boundary_pattern_end s k :
  Wrapper.boundary_pattern s = Some k ->
  (0 < k <= length s)%nat
  /\ exists c, s !! (k - 1)%nat = Some c /\ is_space c = true.
Proof.
  unfold Wrapper.boundary_pattern.
  set (head := if starts_with Wrapper.ELLIPSIS_TOKEN s then _ else _).
  destruct head as [h|]; [|discriminate].
  set (q := span_len Wrapper.is_closer (skipn h s)).
  destruct (span_len is_space (skipn (h + q) s)) as [|w] eqn:Hw; [discriminate|].
  intros [= <-].
  pose proof (span_len_le is_space (skipn (h + q) s)) as Hle.
  rewrite Hw, length_skipn in Hle.
  destruct (span_len_lookup is_space (skipn (h + q) s) w) as (c & Hc & Hsp);
    [rewrite Hw; lia|].
  split; [lia|]. exists c. split; [|exact Hsp].
  change (skipn (h + q) s) with (drop (h + q) s) in Hc.
  rewrite lookup_drop in Hc. rewrite <- Hc. f_equal. lia.
Qed.

Variable text : str.

Local Abbreviation ends_ok := (Spec.ends_ok text).

Lemma ends_ok_weaken a b ms : (b <= a)%nat -> ends_ok a ms -> ends_ok b ms.
Proof.
  destruct ms as [|mt r]; [easy|]. simpl. intros Hle (H1 & H2 & H3 & H4).
  repeat split; try assumption; lia.
Qed.

Lemma finditer_aux_ends_ok s :
  forall skip pos pre,
    text = pre ++ s -> pos = length pre -> (skip <= length s)%nat ->
    ends_ok (pos + skip) (finditer_aux Wrapper.boundary_pattern skip pos s).
Proof.
  induction s as [|c r IH]; intros skip pos pre Htext Hpos Hskip; [exact I|].
  assert (Htext' : text = (pre ++ [c]) ++ r) by now rewrite <- app_assoc.
  assert (Hpos' : S pos = length (pre ++ [c])) by (rewrite length_app; simpl; lia).
  cbn [finditer_aux]. destruct skip as [|k].
  - destruct (Wrapper.boundary_pattern (c :: r)) as [[|n]|] eqn:Hm.
    + apply (ends_ok_weaken (S pos + 0)); [lia|].
      apply (IH O _ _ Htext' Hpos'). lia.
    + apply boundary_pattern_end in Hm as (Hk & ch & Hch & Hsp).
      simpl in Hk, Hch. rewrite Nat.sub_0_r in Hch.
      cbn [ends_ok snd]. split; [|split; [|split]].
      * rewrite Htext, length_app. simpl. lia.
      * lia.
      * exists ch. split; [|exact Hsp]. rewrite Htext, lookup_app_r by lia.
        rewrite <- Hch. f_equal. lia.
      * replace (pos + S n)%nat with (S pos + n)%nat by lia.
        apply (IH n _ _ Htext' Hpos'). lia.
    + apply (ends_ok_weaken (S pos + 0)); [lia|].
      apply (IH O _ _ Htext' Hpos'). lia.
  - replace (pos + S k)%nat with (S pos + k)%nat by lia.
    apply (IH k _ _ Htext' Hpos'). simpl in Hskip. lia.
Qed.

Lemma finditer_ends_ok :
  ends_ok 0 (finditer Wrapper.boundary_pattern text).
Proof. apply (finditer_aux_ends_ok text O O []); simpl; auto; lia. Qed.

Local Abbreviation dots_back := (replace Wrapper.ELLIPSIS_TOKEN (u "...")).

Lemma split_ws_dots_back s :
  split_ws (dots_back s) = map dots_back (split_ws s).
Proof. apply split_ws_replace; easy. Qed.

Lemma slice_words start e c :
  (start <= e)%nat -> (0 < e)%nat ->
  text !! (e - 1)%nat = Some c -> is_space c = true ->
  split_ws (skipn start text)
  = split_ws (slice start e text) ++ split_ws (skipn e text).
Proof.
  intros Hle Hpos Hc Hsp. unfold slice.
  destruct (decide (e = start)) as [->|Hne].
  { now rewrite Nat.sub_diag. }
  assert (Hdrop : skipn e text = skipn (e - start) (skipn start text)).
  { change (drop e text = drop (e - start) (drop start text)).
    rewrite drop_drop. f_equal. lia. }
  rewrite Hdrop.
  rewrite <- (firstn_skipn (e - start) (skipn start text)) at 1.
  destruct (e - start)%nat as [|n] eqn:Hn; [lia|].
  assert (Hlast : drop start text !! n = Some c).
  { rewrite lookup_drop, <- Hc. f_equal. lia. }
  change (firstn (S n) (skipn start text)) with (take (S n) (drop start text)).
  rewrite (take_S_r _ _ _ Hlast), <- app_assoc. cbn [app].
  rewrite (split_ws_app _ _ _ Hsp), (split_ws_app _ _ [] Hsp).
  now rewrite app_nil_r.
Qed.

Lemma base_sentence_words x base :
  concat (map split_ws
            (if is_empty (strip x) then base else base ++ [dots_back (strip x)]))
  = concat (map split_ws base) ++ map dots_back (split_ws x).
Proof.
  destruct (strip x) as [|c r] eqn:Hs; cbn [is_empty].
  - now rewrite (strip_nil_no_words _ Hs), app_nil_r.
  - rewrite map_app, concat_app. simpl. rewrite app_nil_r.
    now rewrite split_ws_dots_back, <- Hs, split_ws_strip.
Qed.

Lemma base_loop_words ms :
  forall start base,
  ends_ok start ms ->
  concat (map split_ws (snd (fold_left (Wrapper.base_step text) ms (start, base))))
    ++ map dots_back
         (split_ws (skipn (fst (fold_left (Wrapper.base_step text) ms (start, base)))
                      text))
  = concat (map split_ws base) ++ map dots_back (split_ws (skipn start text)).
Proof.
  induction ms as [|mt ms IH]; intros start base Hok; [reflexivity|].
  destruct Hok as (Hle & Hpos & (c & Hc & Hsp) & Hrest).
  cbn [fold_left]. unfold Wrapper.base_step at 2 4.
  rewrite (IH _ _ Hrest), base_sentence_words.
  rewrite (slice_words start (snd mt) c) by (assumption || lia).
  now rewrite map_app, <- app_assoc.
Qed.

(** The words of the base sentences are the words of the text, the dots
    put back. *)
Lemma base_sentences_words :
  concat (map split_ws (Wrapper.base_sentences_of text))
  = split_ws (dots_back text).
Proof.
  unfold Wrapper.base_sentences_of.
  pose proof (base_loop_words _ O [] finditer_ends_ok) as Hloop.
  destruct (fold_left _ _ _) as [start base]. cbn [fst snd] in Hloop.
  rewrite base_sentence_words, Hloop. simpl. now rewrite split_ws_dots_back.
Qed.

End BoundaryFacts.

(** ** The ellipsis token *)

Section TokenFacts.

Lemma starts_with_app p x : starts_with p (p ++ x) = true.
Proof. induction p as [|c p IH]; simpl; [reflexivity|]. now rewrite N.eqb_refl. Qed.

Lemma starts_with_split p s :
  starts_with p s = true -> s = p ++ skipn (length p) s.
Proof.
  revert s. induction p as [|c p IH]; intros [|d s]; simpl; try easy.
  intros [Hc Hp]%andb_true_iff. apply N.eqb_eq in Hc as ->. f_equal. now apply IH.
Qed.

Lemma replace_aux_skip old new r k :
  replace_aux old new k r = replace_aux old new 0 (skipn k r).
Proof.
  revert k. induction r as [|c r IH]; intros [|k]; try reflexivity.
  simpl skipn. cbn [replace_aux]. apply IH.
Qed.

Lemma replace_at_match old new s :
  old <> [] -> starts_with old s = true ->
  replace old new s = new ++ replace old new (skipn (length old) s).
Proof.
  intros Hold Hst. destruct s as [|c r]; [now destruct old|].
  unfold replace. cbn [replace_aux]. rewrite Hst, replace_aux_skip.
  destruct old as [|o old']; [easy|]. simpl. now rewrite Nat.sub_0_r.
Qed.

Lemma replace_no_match old new c r :
  starts_with old (c :: r) = false ->
  replace old new (c :: r) = c :: replace old new r.
Proof. unfold replace. cbn [replace_aux]. now intros ->. Qed.

(** A text that starts the result of a replacement and has nothing of the
    first character of [new] starts the text itself. *)
Lemma starts_with_replace_inv old new h new' w :
  new = h :: new' -> forallb (fun c => negb (c =? h)%N) w = true ->
  forall r, starts_with w (replace old new r) = true -> starts_with w r = true.
Proof.
  intros -> . induction w as [|x w IH]; [reflexivity|]. simpl.
  intros [Hx Hw]%andb_true_iff r. destruct r as [|y r]; [easy|].
  unfold replace. cbn [replace_aux].
  destruct (starts_with old (y :: r)).
  - simpl. rewrite (negb_true_iff _) in Hx. now rewrite Hx.
  - simpl. intros [Hxy Hrest]%andb_true_iff. rewrite Hxy. simpl.
    now apply IH.
Qed.

Lemma starts_with_cons_replace_inv old new h new' a w c r :
  new = h :: new' -> forallb (fun c => negb (c =? h)%N) w = true ->
  starts_with (a :: w) (c :: replace old new r) = true ->
  starts_with (a :: w) (c :: r) = true.
Proof.
  intros Hnew Hw. cbn [starts_with]. intros [Hc Hst]%andb_true_iff.
  rewrite Hc. simpl. now apply (starts_with_replace_inv old new h new' w Hnew Hw).
Qed.

Lemma str_in_cons_other a w c x :
  (a =? c)%N = false -> str_in (a :: w) (c :: x) = str_in (a :: w) x.
Proof. intros Hac. cbn [str_in starts_with]. now rewrite Hac. Qed.

Lemma str_in_skipn p s k : str_in p s = false -> str_in p (skipn k s) = false.
Proof.
  revert s. induction k as [|k IH]; intros s; [easy|].
  destruct s as [|c s]; [easy|]. simpl skipn. cbn [str_in].
  intros [_ H]%orb_false_iff. now apply IH.
Qed.

Local Abbreviation token := Wrapper.ELLIPSIS_TOKEN.
Local Abbreviation dots := (u "...").

Lemma token_round_trip n :
  forall s, (length s <= n)%nat -> str_in token s = false ->
  replace token dots (replace dots token s) = s.
Proof.
  induction n as [|n IH]; intros s Hlen Hno.
  { destruct s; [reflexivity|simpl in Hlen; lia]. }
  destruct s as [|c r]; [reflexivity|].
  destruct (starts_with dots (c :: r)) eqn:Hdots.
  - rewrite (replace_at_match dots token _ ltac:(easy) Hdots).
    rewrite (replace_at_match token dots _ ltac:(easy) (starts_with_app _ _)).
    rewrite skipn_app, Nat.sub_diag, skipn_all. cbn [app].
    change (drop 0 ?x) with x. rewrite IH.
    + symmetry. now apply starts_with_split.
    + rewrite length_skipn. simpl in *. lia.
    + now apply str_in_skipn.
  - rewrite (replace_no_match dots token c r Hdots).
    cbn [str_in] in Hno. apply orb_false_iff in Hno as [Hhead Hrest].
    rewrite replace_no_match.
    + f_equal. apply IH; [simpl in Hlen; lia|exact Hrest].
    + destruct (starts_with token (c :: replace dots token r)) eqn:Hst;
        [|reflexivity].
      rewrite <- Hhead. symmetry. revert Hst.
      now apply (starts_with_cons_replace_inv dots token 10214%N
                   [69; 76; 76; 73; 80; 83; 73; 83; 10215]%N 10214%N
                   [69; 76; 76; 73; 80; 83; 73; 83; 10215]%N c r eq_refl eq_refl).
Qed.

Lemma unicode_ellipsis_no_token s :
  str_in token s = false ->
  str_in token (replace (u "…") dots s) = false.
Proof.
  induction s as [|c r IH]; [easy|]. cbn [str_in].
  intros [Hhead Hrest]%orb_false_iff. specialize (IH Hrest).
  unfold replace in *. change (u "…") with [8230%N] in *.
  cbn [replace_aux starts_with length Nat.sub].
  destruct (8230 =? c)%N eqn:Hc; cbn [andb].
  - change (dots ++ ?x) with (46%N :: 46%N :: 46%N :: x).
    change token with (10214%N :: [69; 76; 76; 73; 80; 83; 73; 83; 10215]%N) in *.
    now rewrite !str_in_cons_other by reflexivity.
  - cbn [str_in]. rewrite IH, orb_false_r.
    destruct (starts_with token (c :: replace_aux [8230%N] dots 0 r)) eqn:Hst;
      [|reflexivity].
    rewrite <- Hhead. symmetry. revert Hst.
    now apply (starts_with_cons_replace_inv [8230%N] dots 46%N [46; 46]%N
                 10214%N [69; 76; 76; 73; 80; 83; 73; 83; 10215]%N c r
                 eq_refl eq_refl).
Qed.

(** On a paragraph in which the token does not occur, the ellipsis
    normalization is the rewriting of the unicode ellipsis alone. *)
Lemma normalize_ellipses_plain paragraph :
  str_in token paragraph = false ->
  Spec.normalize_ellipses paragraph = replace (u "…") dots paragraph.
Proof.
  intros Hno. unfold Spec.normalize_ellipses.
  apply (token_round_trip _ _ (Nat.le_refl _)).
  now apply unicode_ellipsis_no_token.
Qed.

End TokenFacts.

(** ** split_into_sentences: the text of the chunks *)

Section SegmenterText.

Variable lower : str -> str.
Variable max_len : Z.
Variable language : str.

Local Abbreviation squeeze := Spec.remove_ws.
Local Abbreviation stays := (fun t => Wrapper.defers lower language t = false).

(** The tokens of a sentence hold its text. *)
Lemma merged_tokens_text cur s :
  concat (map squeeze
            (Wrapper.merge_parts (re_split_aux Wrapper.is_soft_delim cur s)))
  = squeeze (rev cur ++ s).
Proof.
  revert cur. induction s as [|c s IH]; intros cur.
  - simpl. rewrite app_nil_r.
    destruct (rev cur) as [|x r] eqn:Hr; [reflexivity|].
    cbn [is_empty map concat]. now rewrite remove_ws_strip, app_nil_r.
  - cbn [re_split_aux]. destruct (Wrapper.is_soft_delim c) eqn:Hc.
    + cbn [Wrapper.merge_parts Wrapper.fullmatch_soft]. rewrite Hc.
      rewrite map_app, concat_app, (IH []). simpl rev. cbn [app].
      replace (rev cur ++ c :: s) with ((rev cur ++ [c]) ++ s)
        by now rewrite <- app_assoc.
      rewrite (remove_ws_app (rev cur ++ [c]) s). f_equal.
      destruct (rev cur ++ [c]) as [|x r] eqn:Hr; [now destruct (rev cur)|].
      cbn [is_empty map concat]. now rewrite remove_ws_strip, app_nil_r.
    + rewrite IH. simpl rev. now rewrite <- app_assoc.
Qed.

(** The tokens of a sentence hold its words, each soft delimiter ending
    one. *)
Lemma merged_tokens_words cur s :
  concat (map split_ws
            (Wrapper.merge_parts (re_split_aux Wrapper.is_soft_delim cur s)))
  = split_ws (rev cur ++ Spec.space_after_soft s).
Proof.
  revert cur. induction s as [|c s IH]; intros cur.
  - simpl. rewrite app_nil_r.
    destruct (rev cur) as [|x r] eqn:Hr; [reflexivity|].
    cbn [is_empty map concat]. now rewrite split_ws_strip, app_nil_r.
  - cbn [re_split_aux]. unfold Spec.space_after_soft. cbn [flat_map].
    fold (Spec.space_after_soft s).
    destruct (Wrapper.is_soft_delim c) eqn:Hc.
    + cbn [Wrapper.merge_parts Wrapper.fullmatch_soft]. rewrite Hc.
      rewrite map_app, concat_app, (IH []). simpl rev. cbn [app].
      assert (Hfirst :
        concat (map split_ws
                  (if is_empty (rev cur ++ [c]) then []
                   else [strip (rev cur ++ [c])]))
        = split_ws (rev cur ++ [c])).
      { destruct (rev cur ++ [c]) as [|x r] eqn:Hr; [now destruct (rev cur)|].
        cbn [is_empty map concat]. now rewrite split_ws_strip, app_nil_r. }
      rewrite Hfirst.
      rewrite <- (split_ws_app (rev cur ++ [c]) 32%N
                    (Spec.space_after_soft s) eq_refl).
      now rewrite <- app_assoc.
    + rewrite IH. simpl rev. now rewrite <- app_assoc.
Qed.

Lemma flush_words chunks buffer :
  concat (map split_ws
            (match Wrapper.flush buffer with
             | Some out => chunks ++ [out]
             | None => chunks
             end))
  = concat (map split_ws chunks) ++ concat (map split_ws buffer).
Proof.
  unfold Wrapper.flush.
  rewrite <- (split_ws_join buffer), <- (split_ws_strip (join (u " ") buffer)).
  destruct (strip (join (u " ") buffer)) as [|c r]; cbn [is_empty].
  - change (split_ws []) with (@nil str). now rewrite app_nil_r.
  - rewrite map_app, concat_app. cbn [map concat]. now rewrite app_nil_r.
Qed.

(** A round of the packing loop that moves no token away keeps the words
    read so far, in order, in the chunks and the buffer. *)
Lemma pack_step_words chunks buffer current_len tok :
  Spec.pops_at lower max_len language (chunks, buffer, current_len) tok = false ->
  let st := Wrapper.pack_step lower max_len language
              (chunks, buffer, current_len) tok in
  concat (map split_ws (fst (fst st))) ++ concat (map split_ws (snd (fst st)))
  = concat (map split_ws chunks) ++ concat (map split_ws buffer) ++ split_ws tok.
Proof.
  unfold Spec.pops_at, Wrapper.pack_step.
  destruct (strip tok) as [|c r] eqn:Hts; cbn [is_empty negb andb].
  { intros _. cbn [fst snd].
    rewrite <- (split_ws_strip tok), Hts. simpl. now rewrite app_nil_r. }
  rewrite <- Hts in *.
  destruct (Wrapper.smart_can_add max_len (strip tok) current_len);
    cbn [fst snd negb andb].
  - intros _. rewrite map_app, concat_app. simpl.
    now rewrite app_nil_r, split_ws_strip.
  - intros Hstay.
    assert (Hsame : match last buffer with
                    | Some l => if Wrapper.defers lower language l
                                then removelast buffer else buffer
                    | None => buffer
                    end = buffer).
    { destruct (last buffer) as [l|]; [|reflexivity]. now rewrite Hstay. }
    rewrite Hsame, flush_words. simpl.
    now rewrite app_nil_r, split_ws_strip, <- app_assoc.
Qed.

Lemma pack_loop_words merged :
  forall chunks buffer current_len,
  Spec.no_pop lower max_len language (chunks, buffer, current_len) merged = true ->
  let st := fold_left (Wrapper.pack_step lower max_len language) merged
              (chunks, buffer, current_len) in
  concat (map split_ws (fst (fst st))) ++ concat (map split_ws (snd (fst st)))
  = concat (map split_ws chunks) ++ concat (map split_ws buffer)
      ++ concat (map split_ws merged).
Proof.
  induction merged as [|tok merged IH]; intros chunks buffer current_len Hnp.
  - simpl. now rewrite app_nil_r.
  - cbn [Spec.no_pop] in Hnp. apply andb_true_iff in Hnp as [Hstay Hrest].
    apply negb_true_iff in Hstay. cbn [fold_left].
    pose proof (pack_step_words chunks buffer current_len tok Hstay) as Heq.
    destruct (Wrapper.pack_step lower max_len language
                (chunks, buffer, current_len) tok) as [[c1 b1] l1].
    cbn [fst snd] in Heq. cbv zeta in Heq |- *.
    rewrite (IH c1 b1 l1 Hrest). cbn [map concat].
    now rewrite app_assoc, Heq, <- !app_assoc.
Qed.

(** A sentence that fits keeps its words; one that is re-chunked without a
    token moved away keeps them with each soft delimiter ending a word. *)
Lemma chunk_sentence_words chunks sent :
  (len (strip sent) <=? max_len)
  || Spec.no_pop lower max_len language (chunks, [], 0)
       (Wrapper.merge_parts (re_split Wrapper.is_soft_delim (strip sent)))
  = true ->
  concat (map split_ws (Wrapper.chunk_sentence lower max_len language chunks sent))
  = concat (map split_ws chunks) ++ split_ws (Spec.rechunked max_len sent).
Proof.
  unfold Wrapper.chunk_sentence, Spec.rechunked.
  destruct (len (strip sent) <=? max_len); simpl orb.
  - intros _. rewrite map_app, concat_app. simpl.
    now rewrite app_nil_r, split_ws_strip.
  - intros Hnp.
    pose proof (pack_loop_words _ chunks [] 0 Hnp) as Hloop.
    destruct (fold_left _ _ _) as [[c1 b1] l1]. cbn [fst snd] in Hloop.
    cbv zeta in Hloop. rewrite flush_words, Hloop. simpl.
    unfold re_split. now rewrite merged_tokens_words.
Qed.

Lemma chunk_loop_words sents :
  forall chunks,
  Spec.no_pop_from lower max_len language chunks sents = true ->
  concat (map split_ws
            (fold_left (Wrapper.chunk_sentence lower max_len language) sents chunks))
  = concat (map split_ws chunks)
      ++ concat (map (fun sent => split_ws (Spec.rechunked max_len sent)) sents).
Proof.
  induction sents as [|sent sents IH]; intros chunks; simpl.
  - intros _. now rewrite app_nil_r.
  - intros [Hs Hrest]%andb_true_iff.
    now rewrite (IH _ Hrest), (chunk_sentence_words _ _ Hs), <- app_assoc.
Qed.

Lemma all_fit_no_pop sents :
  forall chunks,
  forallb (fun sent => len (strip sent) <=? max_len) sents = true ->
  Spec.no_pop_from lower max_len language chunks sents = true.
Proof.
  induction sents as [|sent sents IH]; intros chunks; simpl; [reflexivity|].
  intros [Hs Hrest]%andb_true_iff. rewrite Hs. simpl. now apply IH.
Qed.

(** A word that is being read and has a soft delimiter before its end. *)
Lemma split_ws_aux_first cur s :
  cur <> [] -> exists w rest, split_ws_aux cur s = (rev cur ++ w) :: rest.
Proof.
  revert cur. induction s as [|c s IH]; intros cur Hcur.
  - exists [], []. destruct cur; [easy|]. simpl. now rewrite app_nil_r.
  - simpl. destruct (is_space c).
    + exists [], (split_ws_aux [] s). destruct cur; [easy|].
      now rewrite app_nil_r.
    + destruct (IH (c :: cur) ltac:(discriminate)) as (w & rest & Heq).
      exists (c :: w), rest. rewrite Heq. simpl. now rewrite <- app_assoc.
Qed.

Lemma soft_ends_word c cur s :
  Wrapper.is_soft_delim c = true ->
  forallb Spec.soft_only_last (split_ws_aux (c :: cur) s) = true ->
  split_ws_aux (c :: cur) s = rev (c :: cur) :: split_ws_aux [] s.
Proof.
  intros Hc Hall. destruct s as [|d s]; [reflexivity|].
  cbn [split_ws_aux] in *. destruct (is_space d) eqn:Hd; [reflexivity|].
  exfalso.
  destruct (split_ws_aux_first (d :: c :: cur) s ltac:(discriminate))
    as (w & rest & Heq).
  rewrite Heq in Hall. cbn [forallb] in Hall.
  apply andb_true_iff in Hall as [Hword _].
  unfold Spec.soft_only_last, Spec.no_soft in Hword.
  simpl rev in Hword. rewrite <- !app_assoc in Hword. cbn [app] in Hword.
  rewrite removelast_app in Hword by discriminate.
  rewrite forallb_app in Hword. apply andb_true_iff in Hword as [_ Hword].
  cbn [removelast forallb] in Hword. rewrite Hc in Hword. discriminate.
Qed.

Lemma space_after_soft_spaced_aux s :
  forall cur,
  forallb Spec.soft_only_last (split_ws_aux cur s) = true ->
  split_ws_aux cur (Spec.space_after_soft s) = split_ws_aux cur s.
Proof.
  induction s as [|c s IH]; intros cur Hall; [reflexivity|].
  unfold Spec.space_after_soft. cbn [flat_map]. fold (Spec.space_after_soft s).
  destruct (Wrapper.is_soft_delim c) eqn:Hc.
  - pose proof (soft_delim_not_space c Hc) as Hsp.
    cbn [app split_ws_aux] in Hall |- *. rewrite Hsp in Hall |- *.
    change (is_space 32%N) with true. cbv iota.
    rewrite (soft_ends_word c cur s Hc Hall) in Hall |- *.
    cbn [forallb] in Hall. apply andb_true_iff in Hall as [_ Hrest].
    now rewrite (IH [] Hrest).
  - cbn [app split_ws_aux] in Hall |- *. destruct (is_space c).
    + destruct cur as [|x cur].
      * now apply IH.
      * cbn [forallb] in Hall. apply andb_true_iff in Hall as [_ Hrest].
        now rewrite (IH [] Hrest).
    + now apply IH.
Qed.

(** Where every soft delimiter ends its word, a space after each changes no
    word. *)
Lemma rechunked_spaced sent :
  (len (strip sent) <=? max_len) || forallb Spec.soft_only_last (split_ws sent)
  = true ->
  split_ws (Spec.rechunked max_len sent) = split_ws sent.
Proof.
  unfold Spec.rechunked.
  destruct (len (strip sent) <=? max_len); simpl orb; [reflexivity|].
  intros Hall. rewrite <- (split_ws_strip sent) in Hall |- *.
  now apply space_after_soft_spaced_aux.
Qed.

Lemma remove_ws_space_after_soft s :
  Spec.remove_ws (Spec.space_after_soft s) = Spec.remove_ws s.
Proof.
  induction s as [|c s IH]; [reflexivity|].
  unfold Spec.space_after_soft. cbn [flat_map]. fold (Spec.space_after_soft s).
  rewrite remove_ws_app, IH.
  change (Spec.remove_ws (c :: s)) with (Spec.remove_ws ([c] ++ s)).
  rewrite (remove_ws_app [c] s). f_equal.
  destruct (Wrapper.is_soft_delim c) eqn:Hc; [|reflexivity].
  unfold Spec.remove_ws. simpl. now rewrite (soft_delim_not_space c Hc).
Qed.

Lemma remove_ws_rechunked sent :
  concat (split_ws (Spec.rechunked max_len sent)) = concat (split_ws sent).
Proof.
  rewrite <- !remove_ws_words. unfold Spec.rechunked.
  destruct (len (strip sent) <=? max_len); [reflexivity|].
  now rewrite remove_ws_space_after_soft, remove_ws_strip.
Qed.

Lemma rechunked_spaced_all sents :
  forallb (fun sent =>
             (len (strip sent) <=? max_len)
             || forallb Spec.soft_only_last (split_ws sent)) sents = true ->
  concat (map (fun sent => split_ws (Spec.rechunked max_len sent)) sents)
  = concat (map split_ws sents).
Proof.
  induction sents as [|sent sents IH]; [reflexivity|].
  cbn [forallb]. intros [Hs Hrest]%andb_true_iff.
  cbn [map concat]. now rewrite (rechunked_spaced _ Hs), (IH Hrest).
Qed.

Lemma remove_ws_rechunked_all sents :
  concat (concat (map (fun sent => split_ws (Spec.rechunked max_len sent)) sents))
  = concat (concat (map split_ws sents)).
Proof.
  induction sents as [|sent sents IH]; [reflexivity|].
  cbn [map concat]. now rewrite !concat_app, remove_ws_rechunked, IH.
Qed.

Lemma all_fit_spaced sents :
  forallb (fun sent => len (strip sent) <=? max_len) sents = true ->
  forallb (fun sent =>
             (len (strip sent) <=? max_len)
             || forallb Spec.soft_only_last (split_ws sent)) sents = true.
Proof.
  induction sents as [|sent sents IH]; [reflexivity|].
  cbn [forallb]. intros [Hs Hrest]%andb_true_iff. now rewrite Hs, (IH Hrest).
Qed.

Lemma normalized_words paragraph :
  split_ws (replace Wrapper.ELLIPSIS_TOKEN (u "...")
              (Wrapper.mark_ellipses paragraph))
  = split_ws (Spec.normalize_ellipses paragraph).
Proof.
  unfold Wrapper.mark_ellipses, Spec.normalize_ellipses.
  rewrite !split_ws_replace by easy. now rewrite split_ws_strip.
Qed.

Lemma split_into_sentences_loop paragraph :
  Wrapper.split_into_sentences lower paragraph max_len language
  = fold_left (Wrapper.chunk_sentence lower max_len language)
      (Wrapper.base_sentences_of (Wrapper.mark_ellipses paragraph)) [].
Proof.
  unfold Wrapper.split_into_sentences.
  destruct paragraph; [vm_compute; reflexivity|reflexivity].
Qed.

Local Abbreviation sentences_of :=
  (fun paragraph => Wrapper.base_sentences_of (Wrapper.mark_ellipses paragraph)).
Local Abbreviation chunks_of :=
  (fun paragraph =>
     Wrapper.split_into_sentences lower paragraph max_len language).

(** C2, as amended.  The sentences the segmenter finds hold, in order, the
    words of the paragraph after its ellipsis normalization.  When the
    packing loop moves no token away, the words of the chunks, in order,
    are the words of these sentences, a sentence that is re-chunked being
    read with a space after each of its soft delimiters; so the chunks
    joined by single spaces are the normalized paragraph, whitespace apart;
    and when in every sentence that is re-chunked each soft delimiter is
    followed by whitespace or ends the sentence, the chunks joined by single
    spaces are equal to the normalized paragraph after whitespace
    normalization.  This is so in particular when every sentence fits
    [max_len].  On a paragraph in which the token of the segmenter does not
    occur, the ellipsis normalization is the rewriting of the unicode
    ellipsis to three dots. *)
Theorem split_into_sentences_keeps_text (paragraph : str) :
  concat (map split_ws (sentences_of paragraph))
  = split_ws (Spec.normalize_ellipses paragraph)
  /\ (Spec.no_token_popped lower paragraph max_len language = true ->
      split_ws (join (u " ") (chunks_of paragraph))
      = concat (map (fun sent => split_ws (Spec.rechunked max_len sent))
                  (sentences_of paragraph))
      /\ Spec.remove_ws (join (u " ") (chunks_of paragraph))
         = Spec.remove_ws (Spec.normalize_ellipses paragraph)
      /\ (Spec.soft_delims_spaced paragraph max_len = true ->
          Spec.ws_normalize (join (u " ") (chunks_of paragraph))
          = Spec.ws_normalize (Spec.normalize_ellipses paragraph)))
  /\ (Spec.all_sentences_fit paragraph max_len = true ->
      Spec.ws_normalize (join (u " ") (chunks_of paragraph))
      = Spec.ws_normalize (Spec.normalize_ellipses paragraph))
  /\ (str_in Wrapper.ELLIPSIS_TOKEN paragraph = false ->
      Spec.normalize_ellipses paragraph = replace (u "…") (u "...") paragraph).
Proof.
  assert (Hsent : concat (map split_ws (sentences_of paragraph))
                  = split_ws (Spec.normalize_ellipses paragraph)).
  { now rewrite base_sentences_words, normalized_words. }
  assert (Hwords :
    Spec.no_token_popped lower paragraph max_len language = true ->
    split_ws (join (u " ") (chunks_of paragraph))
    = concat (map (fun sent => split_ws (Spec.rechunked max_len sent))
                (sentences_of paragraph))).
  { intros Hnp. rewrite split_ws_join, split_into_sentences_loop.
    now rewrite (chunk_loop_words _ [] Hnp). }
  assert (Hspaced :
    Spec.no_token_popped lower paragraph max_len language = true ->
    Spec.soft_delims_spaced paragraph max_len = true ->
    Spec.ws_normalize (join (u " ") (chunks_of paragraph))
    = Spec.ws_normalize (Spec.normalize_ellipses paragraph)).
  { intros Hnp Hsp. unfold Spec.ws_normalize. f_equal.
    rewrite (Hwords Hnp), <- Hsent. now apply rechunked_spaced_all. }
  split; [exact Hsent|]. split; [|split; [|apply normalize_ellipses_plain]].
  - intros Hnp. split; [exact (Hwords Hnp)|]. split; [|exact (Hspaced Hnp)].
    rewrite !remove_ws_words, (Hwords Hnp), <- Hsent.
    apply remove_ws_rechunked_all.
  - intros Hfit. unfold Spec.all_sentences_fit in Hfit. apply Hspaced.
    + now apply all_fit_no_pop.
    + now apply all_fit_spaced.
Qed.

End SegmenterText.

(** A sentence that is re-chunked at its comma, which a space follows; a
    paragraph with an ellipsis whose sentences fit; and a sentence
    re-chunked at a comma that no space follows. *)
Lemma split_into_sentences_keeps_text_witness :
  Spec.ws_normalize
    (join (u " ")
       (Wrapper.split_into_sentences Examples.lower_ascii
          (u "xin chao cac ban, toi la mot tro ly ao") 25 (u "vi")))
  = Spec.ws_normalize
      (Spec.normalize_ellipses (u "xin chao cac ban, toi la mot tro ly ao"))
  /\ Spec.ws_normalize
       (join (u " ")
          (Wrapper.split_into_sentences Examples.lower_ascii
             (u "Một…  hai. a,b") 6 (u "vi")))
     = Spec.ws_normalize (Spec.normalize_ellipses (u "Một…  hai. a,b"))
  /\ split_ws
       (join (u " ")
          (Wrapper.split_into_sentences Examples.lower_ascii (u "a,b") 2 (u "vi")))
     = [u "a,"; u "b"]
  /\ Spec.normalize_ellipses (u "Một…  hai. a,b")
     = replace (u "…") (u "...") (u "Một…  hai. a,b").
Proof.
  split; [|split; [|split]].
  - apply (split_into_sentences_keeps_text Examples.lower_ascii 25 (u "vi")
             (u "xin chao cac ban, toi la mot tro ly ao"));
      vm_compute; reflexivity.
  - apply (split_into_sentences_keeps_text Examples.lower_ascii 6 (u "vi")
             (u "Một…  hai. a,b")).
    vm_compute. reflexivity.
  - rewrite (proj1 (proj1 (proj2 (split_into_sentences_keeps_text
                                    Examples.lower_ascii 2 (u "vi") (u "a,b")))
                      eq_refl)).
    vm_compute. reflexivity.
  - apply (split_into_sentences_keeps_text Examples.lower_ascii 6 (u "vi")
             (u "Một…  hai. a,b")).
    vm_compute. reflexivity.
Defined.

(** C2, as stated, fails, in two ways.  Re-chunked at its comma with
    [max_len = 2], [a,b] comes back as [a, b], no token being moved away.
    And with [max_len = 8] the conjunction of [abc, và, def] is moved away
    from the end of its buffer and is in no chunk: the chunks are not the
    paragraph even with all whitespace removed. *)
Lemma split_into_sentences_inserts_space :
  (Wrapper.split_into_sentences Examples.lower_ascii (u "a,b") 2 (u "vi")
   = [u "a,"; u "b"]
   /\ Spec.no_token_popped Examples.lower_ascii (u "a,b") 2 (u "vi") = true
   /\ Spec.ws_normalize
        (join (u " ")
           (Wrapper.split_into_sentences Examples.lower_ascii (u "a,b") 2 (u "vi")))
      <> Spec.ws_normalize (replace (u "…") (u "...") (u "a,b")))
  /\ (Wrapper.split_into_sentences Examples.lower_ascii (u "abc, và, def") 8
        (u "vi") = [u "abc,"; u "def"]
      /\ Spec.no_token_popped Examples.lower_ascii (u "abc, và, def") 8 (u "vi")
         = false
      /\ Spec.soft_delims_spaced (u "abc, và, def") 8 = true
      /\ Spec.remove_ws
           (join (u " ")
              (Wrapper.split_into_sentences Examples.lower_ascii
                 (u "abc, và, def") 8 (u "vi")))
         <> Spec.remove_ws (replace (u "…") (u "...") (u "abc, và, def"))).
Proof.
  split.
  - split; [vm_compute; reflexivity|]. split; [vm_compute; reflexivity|].
    vm_compute. discriminate.
  - split; [vm_compute; reflexivity|]. split; [vm_compute; reflexivity|].
    split; [vm_compute; reflexivity|]. vm_compute. discriminate.
Qed.


(** * Further properties *)

(** ** split_text_smart *)

Section SmartSplitFacts.

Variable term : char -> bool.

Lemma split_after_words s :
  forall after_term in_match cur,
  (in_match = true -> cur = []) ->
  concat (map split_ws (Wrapper.split_after_aux term after_term in_match cur s))
  = split_ws (rev cur ++ s).
Proof.
  induction s as [|c r IH]; intros after_term in_match cur Hcur.
  - simpl. now rewrite !app_nil_r.
  - cbn [Wrapper.split_after_aux].
    destruct (is_space c) eqn:Hc; cbn [andb].
    + destruct in_match.
      * rewrite (Hcur eq_refl). rewrite (IH false true [] (fun _ => eq_refl)).
        simpl. now rewrite (split_ws_space _ _ Hc).
      * destruct after_term.
        -- cbn [map concat]. rewrite (IH false true [] (fun _ => eq_refl)).
           simpl. now rewrite (split_ws_app _ _ _ Hc).
        -- rewrite IH by discriminate. simpl. now rewrite <- app_assoc.
    + rewrite IH by discriminate. simpl. now rewrite <- app_assoc.
Qed.

Lemma nonempty_pieces_words (ps : list str) :
  concat (map split_ws (List.filter (fun s => negb (is_empty s)) ps))
  = concat (map split_ws ps).
Proof.
  induction ps as [|x ps IH]; [reflexivity|]. simpl.
  destruct x; simpl; [exact IH|]. now rewrite IH.
Qed.

End SmartSplitFacts.

(** X1. [split_text_smart] keeps every word of the text, in order: the words
    of its sentences, one sentence after the other, are the words of the
    text, so the sentences joined by single spaces are the text after
    whitespace normalization. *)
Theorem split_text_smart_keeps_words (text : str) :
  concat (map split_ws (Wrapper.split_text_smart text)) = split_ws text
  /\ Spec.ws_normalize (join (u " ") (Wrapper.split_text_smart text))
     = Spec.ws_normalize text.
Proof.
  assert (Hwords : concat (map split_ws (Wrapper.split_text_smart text))
                   = split_ws text).
  { unfold Wrapper.split_text_smart, Wrapper.split_after.
    rewrite nonempty_pieces_words, split_after_words by discriminate.
    simpl. apply split_ws_strip. }
  split; [exact Hwords|].
  unfold Spec.ws_normalize. now rewrite split_ws_join, Hwords.
Qed.

Section SmartSplitShape.

Lemma tight_strip p : Spec.tight p = true -> strip p = p.
Proof.
  unfold Spec.tight. intros [Hh Hl]%andb_true_iff.
  destruct p as [|a p]; [reflexivity|]. simpl in Hh. apply negb_true_iff in Hh.
  unfold strip, strip_by, lstrip_by. rewrite (drop_while_id _ _ _ Hh).
  destruct (last (a :: p)) as [b|] eqn:Hlast.
  - apply last_Some in Hlast as [q Hq]. rewrite Hq.
    apply rstrip_by_snoc_keep. now apply negb_true_iff.
  - now apply last_None in Hlast.
Qed.

Lemma strip_last s b : last (strip s) = Some b -> is_space b = false.
Proof.
  unfold strip, strip_by, rstrip_by.
  set (y := drop_while is_space (rev (lstrip_by is_space s))).
  intros Hlast. apply last_Some in Hlast as [q Hq].
  apply (f_equal (@rev _)) in Hq. rewrite rev_involutive, rev_app_distr in Hq.
  simpl in Hq. now apply (drop_while_nonempty_head is_space _ _ _ Hq).
Qed.

Lemma last_after_space (c : char) (pre r : str) :
  is_space c = true ->
  match last (pre ++ c :: r) with Some b => is_space b = false | None => True end ->
  match last r with Some b => is_space b = false | None => True end.
Proof.
  intros Hc. rewrite last_app_cons. destruct r as [|d r].
  - simpl. congruence.
  - now rewrite last_cons_cons.
Qed.

Variable term : char -> bool.
Hypothesis term_not_space : forall c, term c = true -> is_space c = false.

(** The pieces of a scan: all but the last are tight and end in a character
    of the class, the last is tight. *)
Lemma split_after_shape s :
  forall after_term in_match cur,
  Spec.scan_inv term after_term in_match (rev cur) s ->
  exists ps lastp,
    Wrapper.split_after_aux term after_term in_match cur s = ps ++ [lastp]
    /\ Forall (fun p => Spec.tight p = true /\ Spec.ends_in term p = true) ps
    /\ Spec.tight lastp = true.
Proof.
  induction s as [|c r IH]; intros after_term in_match cur (H1 & H2 & H3 & H4 & H5).
  - exists [], (rev cur). split; [reflexivity|]. split; [constructor|].
    rewrite app_nil_r in H5. unfold Spec.tight.
    destruct (head (rev cur)); destruct (last (rev cur)); simpl;
      rewrite ?H2, ?H5; reflexivity.
  - cbn [Wrapper.split_after_aux].
    assert (Hnext : forall at',
      (rev cur = [] -> is_space c = false) ->
      (at' = true -> term c = true) ->
      Spec.scan_inv term at' false (rev (c :: cur)) r).
    { intros at' Hfirst Hat. simpl rev. split; [discriminate|]. split; [|split; [|split]].
      - destruct (rev cur) as [|a q] eqn:Hq; simpl; [now apply Hfirst|exact H2].
      - intros Ht. split; [reflexivity|]. unfold Spec.ends_in.
        rewrite last_snoc. now apply Hat.
      - intros _ Hnil. now destruct (rev cur).
      - now rewrite <- app_assoc. }
    assert (Hmatch : is_space c = true -> Spec.scan_inv term false true (rev []) r).
    { intros Hc. simpl. split; [reflexivity|]. split; [exact I|].
      split; [discriminate|]. split; [discriminate|].
      exact (last_after_space c (rev cur) r Hc H5). }
    destruct (is_space c) eqn:Hc; cbn [andb].
    + destruct in_match.
      * assert (cur = []) as ->.
        { specialize (H1 eq_refl). now destruct cur using rev_ind;
            [|rewrite rev_app_distr in H1]. }
        apply IH, Hmatch. reflexivity.
      * destruct after_term.
        -- destruct (IH false true [] (Hmatch eq_refl)) as (ps & lp & Heq & Hps & Hlp).
           exists (rev cur :: ps), lp. rewrite Heq. split; [reflexivity|].
           split; [|exact Hlp]. constructor; [|exact Hps].
           destruct (H3 eq_refl) as [_ Hend]. split; [|exact Hend].
           unfold Spec.tight, Spec.ends_in in *.
           destruct (head (rev cur)); destruct (last (rev cur)) as [b|];
             try discriminate; simpl.
           ++ now rewrite H2, (term_not_space b Hend).
           ++ now rewrite (term_not_space b Hend).
        -- apply IH, Hnext; [|auto].
           intros Hnil. specialize (H4 eq_refl Hnil). simpl in H4. congruence.
    + apply IH, Hnext; [reflexivity|]. auto.
Qed.

End SmartSplitShape.

(** X2. Every sentence that [split_text_smart] returns is non-empty and has
    no whitespace at either end, and every sentence but the last ends in one
    of [.!?;:]. *)
Theorem split_text_smart_sentences (text : str) :
  Forall (fun s => s <> [] /\ strip s = s) (Wrapper.split_text_smart text)
  /\ (forall ss s_last,
        Wrapper.split_text_smart text = ss ++ [s_last] ->
        Forall (fun s => Spec.ends_in Wrapper.is_sentence_end s = true) ss).
Proof.
  assert (Hterm : forall c, Wrapper.is_sentence_end c = true -> is_space c = false).
  { intros c. unfold Wrapper.is_sentence_end, char_in.
    change (u ".!?;:") with [46; 33; 63; 59; 58]%N. simpl.
    repeat match goal with
           | |- context [N.eqb c ?k] => destruct (N.eqb_spec c k); [subst; reflexivity|]
           end.
    discriminate. }
  assert (Hinv : Spec.scan_inv Wrapper.is_sentence_end false false (rev [])
                   (strip text)).
  { simpl. split; [discriminate|]. split; [exact I|]. split; [discriminate|].
    split.
    - intros _ _. destruct (strip text) as [|a q] eqn:Hs; [exact I|].
      simpl. unfold strip in Hs. now apply strip_by_head in Hs.
    - cbn [app]. destruct (last (strip text)) as [b|] eqn:Hl; [|exact I].
      now apply strip_last in Hl. }
  destruct (split_after_shape _ Hterm _ _ _ _ Hinv) as (ps & lp & Heq & Hps & Hlp).
  unfold Wrapper.split_text_smart, Wrapper.split_after. rewrite Heq.
  assert (Hfilter : List.filter (fun s => negb (is_empty s)) (ps ++ [lp])
                    = ps ++ (if is_empty lp then [] else [lp])).
  { rewrite List.filter_app. f_equal.
    - clear Heq. induction Hps as [|p ps [_ Hend] _ IH]; [reflexivity|].
      simpl. destruct p; [discriminate|]. simpl. now rewrite IH.
    - simpl. now destruct (is_empty lp). }
  rewrite Hfilter. split.
  - apply Forall_app. split.
    + eapply Forall_impl; [exact Hps|]. intros p [Ht He]. split.
      * intros ->. discriminate.
      * now apply tight_strip.
    + destruct lp; simpl; constructor; [|constructor].
      split; [discriminate|now apply tight_strip].
  - intros ss s_last Hss.
    assert (Hends : Forall (fun s => Spec.ends_in Wrapper.is_sentence_end s = true) ps).
    { eapply Forall_impl; [exact Hps|]. now intros p [_ He]. }
    destruct (is_empty lp).
    + rewrite app_nil_r in Hss. rewrite Hss in Hends.
      now apply Forall_app in Hends as [? _].
    + apply app_inj_tail in Hss as [-> _]. exact Hends.
Qed.


(** ** The legacy paragraph_to_audio *)

Section LegacyPipelineFacts.

Context {F : PyFloat}.
Variable is_decimal : char -> bool.
Variable num2words_int : str -> str.
Variable num2words_float : str -> str.
Variable sample : Type.
Variable rms : list sample -> Z -> Z -> list float.
Variable DEFAULT_SAMPLE_RATE : Z.
Variable inference : str -> str -> result (list sample).

Local Abbreviation call_of :=
  (Spec.legacy_call is_decimal num2words_int num2words_float).
Local Abbreviation synth :=
  (Spec.legacy_synthesize_and_trim is_decimal num2words_int num2words_float
     sample rms DEFAULT_SAMPLE_RATE inference).
Local Abbreviation process :=
  (Legacy.process_sentences is_decimal num2words_int num2words_float sample rms
     DEFAULT_SAMPLE_RATE inference).
Local Abbreviation run :=
  (Legacy.paragraph_to_audio is_decimal num2words_int num2words_float sample rms
     DEFAULT_SAMPLE_RATE inference).

Lemma legacy_fine_tune_default_rate wav :
  Legacy.fine_tune_audio sample rms DEFAULT_SAMPLE_RATE wav
    {[ "sample_rate"%string := DEFAULT_SAMPLE_RATE ]}
  = Legacy.trim_silence sample rms wav DEFAULT_SAMPLE_RATE (float_lit 0.01)
      2048 512 (float_lit 0.8).
Proof.
  unfold Legacy.fine_tune_audio. now rewrite lookup_singleton_ne by discriminate.
Qed.

Lemma legacy_process_from sentences :
  forall audio_list calls calls' res,
  process sentences audio_list calls = (calls', res) ->
  (exists n, calls' = calls ++ map call_of (take n (Spec.kept_sentences sentences)))
  /\ (forall al, res = Ok al ->
        calls' = calls ++ map call_of (Spec.kept_sentences sentences)
        /\ exists audios,
             Forall2 (fun s au => synth s = Ok au)
               (Spec.kept_sentences sentences) audios
             /\ al = audio_list ++ audios)
  /\ (Forall (fun s => exists au, synth s = Ok au)
        (Spec.kept_sentences sentences) ->
      exists al, res = Ok al).
Proof.
  induction sentences as [|s sentences IH]; intros audio_list calls calls' res.
  - simpl. intros [= <- <-]. split; [exists O; now rewrite app_nil_r|].
    split; [|intros _; eauto].
    intros al [= <-]. split; [now rewrite app_nil_r|].
    exists []. split; [constructor|now rewrite app_nil_r].
  - cbn [Legacy.process_sentences]. unfold Spec.kept_sentences.
    cbn [List.filter]. fold (Spec.kept_sentences sentences).
    destruct (strip s) as [|c r] eqn:Hs; cbn [is_empty negb]; [apply IH|].
    rewrite <- Hs.
    change (Legacy.normalize_text is_decimal num2words_int num2words_float
              (strip s), u "vi") with (call_of s).
    assert (Hsynth : synth s
              = (out_wav ← inference (fst (call_of s)) (u "vi");
                 Legacy.fine_tune_audio sample rms DEFAULT_SAMPLE_RATE out_wav
                   {[ "sample_rate"%string := DEFAULT_SAMPLE_RATE ]})).
    { unfold Spec.legacy_synthesize_and_trim.
      destruct (inference _ _); simpl; [|reflexivity].
      now rewrite legacy_fine_tune_default_rate. }
    change (Legacy.normalize_text is_decimal num2words_int num2words_float
              (strip s)) with (fst (call_of s)).
    destruct (inference (fst (call_of s)) (u "vi")) as [wav|e] eqn:Hinf.
    2:{ intros [= <- <-]. split; [exists 1%nat; reflexivity|].
        split; [discriminate|].
        intros Hall. inversion Hall as [|? ? [au Hau] _]; subst.
        rewrite Hsynth in Hau. discriminate. }
    destruct (Legacy.fine_tune_audio sample rms DEFAULT_SAMPLE_RATE wav
                {[ "sample_rate"%string := DEFAULT_SAMPLE_RATE ]})
      as [tuned|e] eqn:Hft.
    2:{ intros [= <- <-]. split; [exists 1%nat; reflexivity|].
        split; [discriminate|].
        intros Hall. inversion Hall as [|? ? [au Hau] _]; subst.
        rewrite Hsynth in Hau. simpl in Hau. rewrite Hft in Hau. discriminate. }
    assert (Hok : synth s = Ok tuned) by (rewrite Hsynth; exact Hft).
    intros Hrun. apply IH in Hrun. destruct Hrun as ((n & Hn) & Hres & Hall).
    split; [exists (S n); rewrite Hn, <- app_assoc; reflexivity|].
    split.
    + intros al Hal. destruct (Hres al Hal) as (Hcalls & audios & Hf2 & Heq).
      split; [rewrite Hcalls, <- app_assoc; reflexivity|].
      exists (tuned :: audios). split; [constructor; assumption|].
      rewrite Heq, <- app_assoc. reflexivity.
    + intros Hall'. apply Hall. now inversion Hall'.
Qed.

Lemma blank_strip_nil s : Spec.blank s = true -> strip s = [].
Proof.
  intros Hb. destruct (strip s) eqn:Hs; [reflexivity|].
  assert (Hne : strip s <> []) by (rewrite Hs; discriminate).
  apply strip_nonempty_not_blank in Hne.
  pose proof (strip_by_forallb is_space is_space s Hb) as Hall.
  unfold Spec.blank, strip in *. congruence.
Qed.

Lemma dotted_blank_pieces s :
  forall cur,
  Spec.blank (rev cur) = true ->
  forallb (fun c => is_space c || (c =? 46)%N) s = true ->
  Spec.kept_sentences (str_split_aux 46%N cur s) = [].
Proof.
  induction s as [|c r IH]; intros cur Hcur Hs.
  - simpl. now rewrite (blank_strip_nil _ Hcur).
  - simpl in Hs. apply andb_true_iff in Hs as [Hc Hr]. cbn [str_split_aux].
    destruct (c =? 46)%N eqn:Hdot.
    + unfold Spec.kept_sentences. cbn [List.filter].
      rewrite (blank_strip_nil _ Hcur). cbn [is_empty negb].
      now apply (IH []).
    + apply IH; [|exact Hr]. rewrite orb_false_r in Hc.
      unfold Spec.blank in *. simpl. rewrite forallb_app, Hcur. simpl.
      now rewrite Hc.
Qed.

(** X3. On a paragraph made of whitespace and full stops only (the empty
    paragraph among them) the legacy pipeline calls the engine for nothing
    and raises [ValueError]: there is no audio to concatenate. *)
Theorem legacy_paragraph_to_audio_no_text (paragraph : str) :
  forallb (fun c => is_space c || (c =? 46)%N) paragraph = true ->
  run paragraph = ([], Raise ValueError).
Proof.
  intros Hall. unfold Legacy.paragraph_to_audio.
  destruct (process (str_split 46%N paragraph) [] []) as [calls res] eqn:Hrun.
  pose proof (dotted_blank_pieces paragraph [] eq_refl Hall) as Hkept.
  fold (str_split 46%N paragraph) in Hkept.
  destruct (legacy_process_from _ _ _ _ _ Hrun) as ((n & Hn) & Hres & Hok).
  rewrite Hkept in *. rewrite take_nil in Hn. simpl in Hn. subst calls.
  destruct (Hok (List.Forall_nil _)) as [al ->].
  destruct (Hres al eq_refl) as (_ & audios & Hf2 & ->).
  inversion Hf2; subst. reflexivity.
Qed.

(** X4. When the legacy pipeline returns, the engine was called once, in
    order, for each sentence between full stops that is not blank, with its
    stripped and normalized text and the language [vi], and the result is
    the trimmed audios of these sentences, one after the other; it returns
    whenever there is such a sentence and synthesis and trimming succeed
    for each. *)
Theorem legacy_paragraph_to_audio_concatenates (paragraph : str)
  (calls : list (str * str)) (res : result (list sample)) :
  run paragraph = (calls, res) ->
  (forall audio, res = Ok audio ->
     Spec.kept_sentences (str_split 46%N paragraph) <> []
     /\ calls = map call_of (Spec.kept_sentences (str_split 46%N paragraph))
     /\ exists audios,
          Forall2 (fun s au => synth s = Ok au)
            (Spec.kept_sentences (str_split 46%N paragraph)) audios
          /\ audio = concat audios)
  /\ (Spec.kept_sentences (str_split 46%N paragraph) <> [] ->
      Forall (fun s => exists au, synth s = Ok au)
        (Spec.kept_sentences (str_split 46%N paragraph)) ->
      exists audio, res = Ok audio).
Proof.
  unfold Legacy.paragraph_to_audio.
  destruct (process (str_split 46%N paragraph) [] []) as [calls0 res0] eqn:Hrun.
  intros [= <- <-].
  destruct (legacy_process_from _ _ _ _ _ Hrun) as (_ & Hres & Hok).
  split.
  - intros audio Haudio. destruct res0 as [al|e]; [|discriminate].
    destruct (Hres al eq_refl) as (Hcalls & audios & Hf2 & Hal).
    simpl in Hal, Hcalls, Haudio. subst al.
    destruct audios as [|a audios]; [discriminate|].
    injection Haudio as <-.
    split; [intros Hnil; rewrite Hnil in Hf2; inversion Hf2|].
    split; [exact Hcalls|]. now exists (a :: audios).
  - intros Hne Hall. destruct (Hok Hall) as [al ->].
    destruct (Hres al eq_refl) as (_ & audios & Hf2 & Hal). simpl in Hal. subst al.
    destruct audios as [|a audios].
    + inversion Hf2 as [Hnil|]; subst. now rewrite <- Hnil in Hne.
    + simpl. eauto.
Qed.

End LegacyPipelineFacts.

(** Two sentences around a decimal, and a paragraph without text. *)
Lemma legacy_paragraph_to_audio_no_text_witness :
  Legacy.paragraph_to_audio (F := Examples.QFloat) Examples.ascii_digit
    Examples.one_word Examples.one_word Z Examples.toy_rms 10
    Examples.fixed_wave_legacy (u " . .. ")
  = ([], Raise ValueError).
Proof.
  apply (legacy_paragraph_to_audio_no_text (F := Examples.QFloat)).
  reflexivity.
Defined.

Lemma legacy_paragraph_to_audio_concatenates_witness :
  exists audios,
    Forall2 (fun s au =>
               Spec.legacy_synthesize_and_trim (F := Examples.QFloat)
                 Examples.ascii_digit Examples.one_word Examples.one_word Z
                 Examples.toy_rms 10 Examples.fixed_wave_legacy s = Ok au)
      (Spec.kept_sentences (str_split 46%N (u "Gia 2.5 dong. "))) audios
    /\ [4; 3; 5; 0; 0; 0; 4; 3; 5; 0; 0; 0] = concat audios.
Proof.
  refine (proj2 (proj2 (proj1
    (legacy_paragraph_to_audio_concatenates (F := Examples.QFloat)
       Examples.ascii_digit Examples.one_word Examples.one_word Z
       Examples.toy_rms 10 Examples.fixed_wave_legacy (u "Gia 2.5 dong. ")
       _ _ _) _ eq_refl))).
  vm_compute. reflexivity.
Defined.

(** ** XTTSWrapper.inference *)

Section ModelFacts.

Context {F : PyFloat}.
Variable V : Type.
Variable of_float : float -> V.
Variable of_bool : bool -> V.
Variable lower : str -> str.
Variable getenv : string -> option str.
Variable out : Type.
Variable engine : str -> str -> gmap string V -> result out.

Local Abbreviation inference :=
  (Model.inference V of_float of_bool lower getenv out engine).
Local Abbreviation defaults :=
  (Spec.inference_defaults V of_float of_bool lower getenv).

Lemma inference_union self text language kwargs sd :
  float_of_str (default (u "1.0") (getenv "XTTS_SPEED")) = Ok sd ->
  inference self text language kwargs
  = engine text language (kwargs ∪ defaults self sd).
Proof.
  intros Hsd. unfold Model.inference, Model.pop. rewrite Hsd. simpl.
  f_equal. apply map_eq. intros k. unfold Spec.inference_defaults.
  rewrite lookup_union.
  repeat (rewrite lookup_insert; case_decide;
          [subst; rewrite ?lookup_delete_ne by discriminate;
           destruct (kwargs !! _); reflexivity|]).
  rewrite !lookup_delete_ne by congruence.
  rewrite !lookup_insert_ne by assumption. rewrite lookup_empty.
  destruct (kwargs !! k); reflexivity.
Qed.

(** X5. When [XTTS_SPEED] reads as a float, the engine is called with the
    keywords of the caller completed by the ten defaults: a keyword that is
    passed always wins over its default, one that is not passed gets its
    default, and any other keyword is handed on.  When [XTTS_SPEED] does not
    read as a float the call raises, whatever is passed, [speed] included. *)
Theorem xtts_inference_keywords (self : Model.XTTSWrapper V)
  (text language : str) (kwargs : gmap string V) :
  (forall sd,
     float_of_str (default (u "1.0") (getenv "XTTS_SPEED")) = Ok sd ->
     inference self text language kwargs
     = engine text language (kwargs ∪ defaults self sd)
     /\ (forall k v, kwargs !! k = Some v ->
           (kwargs ∪ defaults self sd) !! k = Some v)
     /\ (forall k, kwargs !! k = None ->
           (kwargs ∪ defaults self sd) !! k = defaults self sd !! k))
  /\ (forall e,
        float_of_str (default (u "1.0") (getenv "XTTS_SPEED")) = Raise e ->
        inference self text language kwargs = Raise e).
Proof.
  split.
  - intros sd Hsd. split; [now apply inference_union|]. split.
    + intros k v Hk. rewrite lookup_union, Hk.
      now destruct (defaults self sd !! k).
    + intros k Hk. rewrite lookup_union, Hk.
      now destruct (defaults self sd !! k).
  - intros e He. unfold Model.inference, Model.pop. now rewrite He.
Qed.


End ModelFacts.

(** The keywords of a call with two of them passed, and a call in an
    environment whose [XTTS_SPEED] is not a number. *)
Lemma xtts_inference_keywords_witness :
  Model.inference (F := Examples.QFloat) (Q + bool) inl inr Examples.lower_ascii
    Examples.speed_env _ Examples.echo_engine Examples.unit_wrapper
    (u "a") (u "vi")
    (<["speed"%string := inl 2%Q]> (<["seed"%string := inl 7%Q]> ∅))
  = Ok ((<["speed"%string := inl 2%Q]> (<["seed"%string := inl 7%Q]> ∅))
        ∪ Spec.inference_defaults (F := Examples.QFloat) (Q + bool) inl inr
            Examples.lower_ascii Examples.speed_env Examples.unit_wrapper 0.2%Q)
  /\ Model.inference (F := Examples.QFloat) (Q + bool) inl inr
       Examples.lower_ascii Examples.bad_speed_env _ Examples.echo_engine
       Examples.unit_wrapper (u "a") (u "vi") (<["speed"%string := inl 2%Q]> ∅)
     = Raise ValueError.
Proof.
  split.
  - apply (proj1 (xtts_inference_keywords (F := Examples.QFloat) (Q + bool)
                    inl inr Examples.lower_ascii Examples.speed_env _
                    Examples.echo_engine Examples.unit_wrapper (u "a") (u "vi")
                    _) 0.2%Q).
    reflexivity.
  - apply (proj2 (xtts_inference_keywords (F := Examples.QFloat) (Q + bool)
                    inl inr Examples.lower_ascii Examples.bad_speed_env _
                    Examples.echo_engine Examples.unit_wrapper (u "a") (u "vi")
                    _) ValueError).
    reflexivity.
Defined.


(** ** The names of the archive *)

Section ZipNameFacts.

Variable isalnum : char -> bool.
Variable K : Z.

Local Abbreviation allowed := (fun c => isalnum c || char_in c (u "-_ ")).

Lemma forallb_filter_self (q : char -> bool) s :
  forallb q (List.filter q s) = true.
Proof.
  induction s as [|c s IH]; [reflexivity|]. simpl.
  destruct (q c) eqn:Hc; [|exact IH]. simpl. now rewrite Hc.
Qed.

Lemma forallb_firstn (q : char -> bool) n s :
  forallb q s = true -> forallb q (firstn n s) = true.
Proof.
  revert n. induction s as [|c s IH]; intros [|n]; simpl; try reflexivity.
  intros [Hc Hs]%andb_true_iff. rewrite Hc. now apply IH.
Qed.

Lemma forallb_slice_to (q : char -> bool) k s :
  forallb q s = true -> forallb q (slice_to k s) = true.
Proof. intros Hs. unfold slice_to. destruct (k <? 0); now apply forallb_firstn. Qed.

(** X7. The name of an entry of the archive is a stem followed by [.wav];
    the stem has at most [DEFAULT_OUTPUT_FILE_LENGTH] characters, is not
    empty when that length is positive, and is made of characters of the
    audio name that are alphanumeric or one of [-], [_] and the space, or
    else is the start of [audio]. *)
Theorem safe_name_shape (audio_name : str) :
  exists stem,
    Main.safe_name isalnum K audio_name = stem ++ u ".wav"
    /\ (0 <= K -> len stem <= K)
    /\ (0 < K -> stem <> [])
    /\ (forallb allowed stem = true \/ stem `prefix_of` u "audio").
Proof.
  unfold Main.safe_name.
  set (safe := strip (List.filter allowed audio_name)).
  set (base := if is_empty safe then u "audio" else safe).
  exists (slice_to K base). split; [reflexivity|].
  assert (Hbase : base <> []).
  { unfold base. destruct safe; simpl; discriminate. }
  split; [|split].
  - intros HK. unfold slice_to, len.
    destruct (Z.ltb_spec K 0); [lia|]. rewrite length_firstn. lia.
  - intros HK. unfold slice_to. destruct (Z.ltb_spec K 0); [lia|].
    destruct base as [|c b]; [easy|].
    destruct (Z.to_nat K) eqn:Hn; [lia|]. discriminate.
  - unfold base. destruct safe as [|c r] eqn:Hsafe; cbn [is_empty].
    + right. apply slice_to_prefix.
    + left. apply forallb_slice_to. rewrite <- Hsafe. unfold safe, strip.
      apply strip_by_forallb, forallb_filter_self.
Qed.

Hypothesis digits_alnum :
  forall c, (48 <= c)%N -> (c <= 57)%N -> isalnum c = true.

Lemma digits_of_uint_range d :
  Forall (fun c => (48 <= c)%N /\ (c <= 57)%N) (digits_of_uint d).
Proof. induction d; simpl; constructor; auto; lia. Qed.

Lemma digit_not_space c : (48 <= c)%N -> (c <= 57)%N -> is_space c = false.
Proof.
  intros H1 H2. unfold is_space.
  repeat match goal with
         | |- context [N.leb ?a ?b] => destruct (N.leb_spec a b); try lia
         | |- context [N.eqb ?a ?b] => destruct (N.eqb_spec a b); try lia
         end; reflexivity.
Qed.

Lemma rstrip_by_keeps_prefix (q : char -> bool) pre s :
  Forall (fun c => q c = false) pre ->
  rstrip_by q (pre ++ s) = pre ++ rstrip_by q s.
Proof.
  induction 1 as [|c l Hc _ IH]; [reflexivity|].
  rewrite <- !app_comm_cons, rstrip_by_keeps_head by exact Hc.
  now rewrite IH.
Qed.

Lemma filter_all_true (q : char -> bool) s :
  Forall (fun c => q c = true) s -> List.filter q s = s.
Proof.
  induction 1 as [|c l Hc _ IH]; [reflexivity|].
  cbn [List.filter]. now rewrite Hc, IH.
Qed.

(** The index and the underscore at the head of an audio name go through
    the cleaning of the name. *)
Lemma safe_name_keeps_index i rest :
  Z.of_nat (length (str_of_nat i)) + 1 <= K ->
  exists w, Main.safe_name isalnum K (str_of_nat i ++ u "_" ++ rest)
            = str_of_nat i ++ 95%N :: w.
Proof.
  intros HK. unfold Main.safe_name.
  change (u "_" ++ rest) with (95%N :: rest).
  set (ds := str_of_nat i) in *.
  assert (Hrange : Forall (fun c => (48 <= c)%N /\ (c <= 57)%N) ds)
    by apply digits_of_uint_range.
  assert (Hfilter : List.filter allowed (ds ++ 95%N :: rest)
                    = ds ++ 95%N :: List.filter allowed rest).
  { rewrite List.filter_app. f_equal.
    - apply filter_all_true. eapply List.Forall_impl; [|exact Hrange].
      intros c [H1 H2]. cbv beta. now rewrite (digits_alnum c H1 H2).
    - cbn [List.filter]. now rewrite orb_true_r. }
  rewrite Hfilter.
  assert (Hstrip : strip (ds ++ 95%N :: List.filter allowed rest)
                   = ds ++ 95%N :: rstrip_by is_space (List.filter allowed rest)).
  { unfold strip, strip_by, lstrip_by.
    assert (Hl : drop_while is_space (ds ++ 95%N :: List.filter allowed rest)
                 = ds ++ 95%N :: List.filter allowed rest).
    { destruct Hrange as [|c l [H1 H2] _]; [reflexivity|].
      simpl. now rewrite (digit_not_space c H1 H2). }
    rewrite Hl, rstrip_by_keeps_prefix.
    - now rewrite rstrip_by_keeps_head.
    - eapply List.Forall_impl; [|exact Hrange].
      intros c [H1 H2]. now apply digit_not_space. }
  rewrite Hstrip.
  assert (Hne : is_empty (ds ++ 95%N :: rstrip_by is_space (List.filter allowed rest))
                = false) by now destruct ds.
  rewrite Hne. unfold slice_to. destruct (Z.ltb_spec K 0); [lia|].
  rewrite firstn_app, firstn_all2 by lia.
  destruct (Z.to_nat K - length ds)%nat as [|m] eqn:Hm; [lia|].
  cbn [firstn]. rewrite <- app_assoc. cbn [app]. eauto.
Qed.

(** X8. When digits are alphanumeric and [DEFAULT_OUTPUT_FILE_LENGTH] leaves
    room for the index and its underscore, audio names built from two
    different indices are written under two different names. *)
Theorem safe_name_distinct (K' : Z) (i j : nat) (s s' : str) :
  Z.of_nat (length (str_of_nat i)) + 1 <= K ->
  Z.of_nat (length (str_of_nat j)) + 1 <= K ->
  i <> j ->
  Main.safe_name isalnum K (Wrapper.audio_name K' i s)
  <> Main.safe_name isalnum K (Wrapper.audio_name K' j s').
Proof.
  intros Hi Hj Hij. unfold Wrapper.audio_name.
  destruct (safe_name_keeps_index i (slice_to K' s) Hi) as [w ->].
  destruct (safe_name_keeps_index j (slice_to K' s') Hj) as [w' ->].
  intros Heq. apply Hij, str_of_nat_inj.
  eapply underscore_split; [apply digits_of_uint_no_underscore ..|exact Heq].
Qed.

End ZipNameFacts.

Lemma safe_name_shape_witness :
  exists stem,
    Main.safe_name Examples.ascii_alnum 8 (u "0_Tôi có 2") = stem ++ u ".wav"
    /\ len stem <= 8 /\ stem <> [].
Proof.
  destruct (safe_name_shape Examples.ascii_alnum 8 (u "0_Tôi có 2"))
    as (stem & Heq & Hlen & Hne & _).
  exists stem. split; [exact Heq|]. split; [apply Hlen; lia|apply Hne; lia].
Defined.

Lemma safe_name_distinct_witness :
  Main.safe_name Examples.ascii_alnum 8 (Wrapper.audio_name 8 3 (u "a!"))
  <> Main.safe_name Examples.ascii_alnum 8 (Wrapper.audio_name 8 4 (u "a!")).
Proof.
  apply (safe_name_distinct Examples.ascii_alnum 8).
  - intros c H1 H2. unfold Examples.ascii_alnum.
    apply N.leb_le in H1, H2. now rewrite H1, H2.
  - vm_compute. discriminate.
  - vm_compute. discriminate.
  - discriminate.
Defined.

(** ** normalize_numbers: what a pass does to a run of digits *)

Section NumberRuns.

Variable is_decimal : char -> bool.
Variable num2words_int : str -> str.
Variable num2words_float : str -> str.

Local Abbreviation digit_free := (Spec.digit_free is_decimal).
Local Abbreviation normalize_numbers :=
  (Wrapper.normalize_numbers is_decimal num2words_int num2words_float).
Local Abbreviation cardinal_pass :=
  (re_sub (Wrapper.match_cardinal is_decimal) num2words_int).

Lemma sub_aux_skip (m : str -> option nat) (repl : str -> str) x y :
  sub_aux m repl (length x) (x ++ y) = sub_aux m repl 0 y.
Proof. induction x as [|c x IH]; [reflexivity|exact IH]. Qed.

Lemma span_len_run ds post :
  forallb is_decimal ds = true -> span_len is_decimal post = O ->
  span_len is_decimal (ds ++ post) = length ds.
Proof.
  intros Hds Hpost. induction ds as [|d ds IH]; [exact Hpost|].
  simpl in *. apply andb_true_iff in Hds as [Hd Hds]. rewrite Hd.
  now rewrite IH.
Qed.

Lemma cardinal_pass_prefix pre rest :
  digit_free pre = true ->
  cardinal_pass (pre ++ rest) = pre ++ cardinal_pass rest.
Proof.
  unfold re_sub. induction pre as [|c pre IH]; [reflexivity|].
  intros [Hc Hpre]%andb_true_iff. apply negb_true_iff in Hc.
  rewrite <- !app_comm_cons. cbn [sub_aux].
  unfold Wrapper.match_cardinal at 1. cbn [span_len]. rewrite Hc.
  now rewrite IH.
Qed.

Lemma cardinal_pass_run ds post :
  ds <> [] -> forallb is_decimal ds = true -> span_len is_decimal post = O ->
  cardinal_pass (ds ++ post) = num2words_int ds ++ cardinal_pass post.
Proof.
  intros Hne Hds Hpost. destruct ds as [|d ds]; [easy|].
  unfold re_sub. rewrite <- app_comm_cons. cbn [sub_aux].
  unfold Wrapper.match_cardinal at 1.
  rewrite app_comm_cons, (span_len_run _ _ Hds Hpost).
  cbn [length]. rewrite <- app_comm_cons. cbn [firstn].
  rewrite firstn_app, Nat.sub_diag, firstn_all. cbn [firstn].
  rewrite app_nil_r. f_equal. apply sub_aux_skip.
Qed.

Hypothesis words_digit_free : forall d, digit_free (num2words_int d) = true.

(** X9. When the words of the speller have no digits, the decimal pattern,
    tried second, never matches: for every text the result is that of the
    cardinal pattern alone, and the speller of decimals plays no part. *)
Theorem normalize_numbers_decimal_pattern_unused (text : str) :
  normalize_numbers text = cardinal_pass text
  /\ forall spell_float,
       Wrapper.normalize_numbers is_decimal num2words_int spell_float text
       = normalize_numbers text.
Proof.
  assert (Hpass : forall spell_float,
            Wrapper.normalize_numbers is_decimal num2words_int spell_float text
            = cardinal_pass text).
  { intros spell_float. rewrite normalize_numbers_passes. unfold re_sub at 1.
    apply sub_aux_no_match, digit_free_never_decimal.
    now apply cardinal_pass_digit_free. }
  split; [apply Hpass|]. intros spell_float. now rewrite !Hpass.
Qed.

(** X10. When the words of the speller have no digits, a run of digits
    that follows a text without digits and is not followed by a digit is
    replaced by its spelling; the text before it is kept as it is and the
    text after it is normalized in turn. *)
Theorem normalize_numbers_spells_run (pre ds post : str) :
  digit_free pre = true ->
  ds <> [] -> forallb is_decimal ds = true ->
  span_len is_decimal post = O ->
  normalize_numbers (pre ++ ds ++ post)
  = pre ++ num2words_int ds ++ normalize_numbers post.
Proof.
  intros Hpre Hne Hds Hpost.
  assert (Hpass : forall text, normalize_numbers text = cardinal_pass text).
  { intros text. rewrite normalize_numbers_passes. unfold re_sub at 1.
    apply sub_aux_no_match, digit_free_never_decimal.
    now apply cardinal_pass_digit_free. }
  rewrite !Hpass, (cardinal_pass_prefix _ _ Hpre).
  now rewrite (cardinal_pass_run _ _ Hne Hds Hpost).
Qed.

End NumberRuns.

Lemma normalize_numbers_decimal_pattern_unused_witness :
  Wrapper.normalize_numbers Examples.ascii_digit Examples.one_word
    Examples.one_word (u "3.14 và 2")
  = re_sub (Wrapper.match_cardinal Examples.ascii_digit) Examples.one_word
      (u "3.14 và 2")
  /\ Wrapper.normalize_numbers Examples.ascii_digit Examples.one_word
       (fun s => s) (u "3.14 và 2")
     = Wrapper.normalize_numbers Examples.ascii_digit Examples.one_word
         Examples.one_word (u "3.14 và 2").
Proof.
  destruct (normalize_numbers_decimal_pattern_unused Examples.ascii_digit
              Examples.one_word Examples.one_word (fun d => eq_refl)
              (u "3.14 và 2")) as [Hpass Hany].
  split; [exact Hpass|apply Hany].
Defined.

Lemma normalize_numbers_spells_run_witness :
  Wrapper.normalize_numbers Examples.ascii_digit Examples.one_word
    Examples.one_word (u "Tôi có " ++ u "12" ++ u " con mèo")
  = u "Tôi có " ++ Examples.one_word (u "12")
    ++ Wrapper.normalize_numbers Examples.ascii_digit Examples.one_word
         Examples.one_word (u " con mèo").
Proof.
  apply (normalize_numbers_spells_run Examples.ascii_digit Examples.one_word
           Examples.one_word (fun d => eq_refl));
    (reflexivity || discriminate).
Defined.

(** ** split_into_sentences: the shape of the chunks *)

Section SegmenterShape.

Variable lower : str -> str.
Variable max_len : Z.
Variable language : str.

Local Abbreviation stripped := (fun c : str => strip c = c).
Local Abbreviation token := (fun t : str => strip t = t /\ t <> []).

Lemma strip_tight s : Spec.tight (strip s) = true.
Proof.
  unfold Spec.tight. apply andb_true_iff. split.
  - destruct (strip s) as [|c r] eqn:Hs; [reflexivity|]. simpl.
    unfold strip in Hs. apply strip_by_head in Hs. now rewrite Hs.
  - destruct (last (strip s)) as [b|] eqn:Hl; [|reflexivity].
    apply strip_last in Hl. now rewrite Hl.
Qed.

Lemma flush_stripped buffer out :
  Wrapper.flush buffer = Some out -> strip out = out.
Proof.
  unfold Wrapper.flush.
  destruct (strip (join (u " ") buffer)) as [|c r] eqn:Hs; [discriminate|].
  cbn [is_empty]. intros [= <-]. rewrite <- Hs. apply strip_idem.
Qed.

Lemma pack_step_stripped chunks buffer current_len tok :
  Forall stripped chunks ->
  Forall stripped
    (fst (fst (Wrapper.pack_step lower max_len language
                 (chunks, buffer, current_len) tok))).
Proof.
  intros Hc. unfold Wrapper.pack_step.
  destruct (is_empty (strip tok)); [exact Hc|].
  destruct (Wrapper.smart_can_add max_len (strip tok) current_len); [exact Hc|].
  cbn [fst].
  match goal with
  | |- context [Wrapper.flush ?b] => destruct (Wrapper.flush b) as [out|] eqn:Hf
  end; [|exact Hc].
  apply Forall_app. split; [exact Hc|]. constructor; [|constructor].
  exact (flush_stripped _ _ Hf).
Qed.

Lemma pack_loop_stripped merged :
  forall chunks buffer current_len,
  Forall stripped chunks ->
  Forall stripped
    (fst (fst (fold_left (Wrapper.pack_step lower max_len language) merged
                 (chunks, buffer, current_len)))).
Proof.
  induction merged as [|tok merged IH]; intros chunks buffer current_len Hc;
    [exact Hc|].
  cbn [fold_left].
  pose proof (pack_step_stripped chunks buffer current_len tok Hc) as Hstep.
  destruct (Wrapper.pack_step lower max_len language
              (chunks, buffer, current_len) tok) as [[c1 b1] l1].
  now apply IH.
Qed.

Lemma chunk_sentence_stripped chunks sent :
  Forall stripped chunks ->
  Forall stripped (Wrapper.chunk_sentence lower max_len language chunks sent).
Proof.
  intros Hc. unfold Wrapper.chunk_sentence.
  destruct (len (strip sent) <=? max_len).
  - apply Forall_app. split; [exact Hc|]. constructor; [|constructor].
    apply strip_idem.
  - pose proof (pack_loop_stripped
                  (Wrapper.merge_parts
                     (re_split Wrapper.is_soft_delim (strip sent)))
                  chunks [] 0 Hc) as Hloop.
    destruct (fold_left _ _ _) as [[c1 b1] l1]. cbn [fst] in Hloop.
    destruct (Wrapper.flush b1) as [out|] eqn:Hf; [|exact Hloop].
    apply Forall_app. split; [exact Hloop|]. constructor; [|constructor].
    exact (flush_stripped _ _ Hf).
Qed.

Lemma chunk_loop_stripped sents :
  forall chunks,
  Forall stripped chunks ->
  Forall stripped
    (fold_left (Wrapper.chunk_sentence lower max_len language) sents chunks).
Proof.
  induction sents as [|sent sents IH]; intros chunks Hc; [exact Hc|].
  cbn [fold_left]. now apply IH, chunk_sentence_stripped.
Qed.

(** X11. No chunk of the segmenter begins or ends with whitespace: each
    one is left as it is by [strip]; this for every paragraph, [max_len]
    and language. *)
Theorem split_into_sentences_chunks_stripped (paragraph : str) :
  Forall (fun chunk => strip chunk = chunk /\ Spec.tight chunk = true)
    (Wrapper.split_into_sentences lower paragraph max_len language).
Proof.
  assert (Hs : Forall stripped
                 (Wrapper.split_into_sentences lower paragraph max_len language)).
  { unfold Wrapper.split_into_sentences.
    destruct (is_empty paragraph); [constructor|].
    apply chunk_loop_stripped. constructor. }
  eapply List.Forall_impl; [|exact Hs].
  intros chunk Hc. split; [exact Hc|]. rewrite <- Hc. apply strip_tight.
Qed.

(** The buffer of the packing loop holds stripped tokens that are not
    empty, and is not empty once a token that is not blank has been read. *)
Lemma flush_some buffer :
  buffer <> [] -> Forall token buffer -> Wrapper.flush buffer <> None.
Proof.
  destruct buffer as [|t b]; [easy|]. intros _ Hall.
  inversion Hall as [|? ? [Ht Hne] _]; subst.
  destruct t as [|c r]; [easy|].
  assert (Hc : is_space c = false).
  { unfold strip in Ht. exact (strip_by_head _ _ _ _ Ht). }
  unfold Wrapper.flush.
  assert (Hj : exists x, join (u " ") ((c :: r) :: b) = c :: x).
  { destruct b; simpl; eauto. }
  destruct Hj as [x ->].
  unfold strip, strip_by, lstrip_by.
  rewrite (drop_while_id _ _ _ Hc), (rstrip_by_keeps_head _ _ _ Hc).
  discriminate.
Qed.

Lemma pack_step_buffer chunks buffer current_len tok :
  Forall token buffer ->
  Forall token
    (snd (fst (Wrapper.pack_step lower max_len language
                 (chunks, buffer, current_len) tok)))
  /\ (buffer <> [] \/ strip tok <> [] ->
      snd (fst (Wrapper.pack_step lower max_len language
                  (chunks, buffer, current_len) tok)) <> []).
Proof.
  intros Hb. unfold Wrapper.pack_step.
  destruct (strip tok) as [|c r] eqn:Hts.
  - cbn [is_empty fst snd]. split; [exact Hb|]. now intros [H|H].
  - cbn [is_empty]. rewrite <- Hts.
    assert (Ht : token (strip tok)).
    { split; [apply strip_idem|]. rewrite Hts. discriminate. }
    destruct (Wrapper.smart_can_add max_len (strip tok) current_len);
      cbn [fst snd].
    + split.
      * apply Forall_app. split; [exact Hb|]. now constructor.
      * intros _. now destruct buffer.
    + split; [now constructor|]. intros _. discriminate.
Qed.

Lemma pack_loop_buffer merged :
  forall chunks buffer current_len,
  Forall token buffer ->
  buffer <> [] \/ Exists (fun tok => strip tok <> []) merged ->
  Forall token
    (snd (fst (fold_left (Wrapper.pack_step lower max_len language) merged
                 (chunks, buffer, current_len))))
  /\ snd (fst (fold_left (Wrapper.pack_step lower max_len language) merged
                 (chunks, buffer, current_len))) <> [].
Proof.
  induction merged as [|tok merged IH]; intros chunks buffer current_len Hb Hsome.
  - cbn [fold_left fst snd]. split; [exact Hb|].
    destruct Hsome as [H|H]; [exact H|inversion H].
  - cbn [fold_left].
    destruct (pack_step_buffer chunks buffer current_len tok Hb) as [Hb1 Hne1].
    destruct (Wrapper.pack_step lower max_len language
                (chunks, buffer, current_len) tok) as [[c1 b1] l1].
    cbn [fst snd] in Hb1, Hne1. apply IH; [exact Hb1|].
    destruct Hsome as [H|H]; [left; apply Hne1; now left|].
    inversion H; subst; [left; apply Hne1; now right|now right].
Qed.

Lemma remove_ws_nil_blank s : Spec.remove_ws s = [] -> Spec.blank s = true.
Proof.
  induction s as [|c s IH]; [reflexivity|]. unfold Spec.remove_ws. simpl.
  destruct (is_space c); simpl; [exact IH|discriminate].
Qed.

Lemma concat_map_nonempty {A} (f : A -> str) (xs : list A) :
  concat (map f xs) <> [] -> Exists (fun x => f x <> []) xs.
Proof.
  induction xs as [|x xs IH]; [easy|]. simpl. intros Hne.
  destruct (f x) as [|c r] eqn:Hx.
  - right. now apply IH.
  - left. rewrite Hx. discriminate.
Qed.

Lemma merged_has_token sent :
  Spec.blank sent = false ->
  Exists (fun tok => strip tok <> [])
    (Wrapper.merge_parts (re_split Wrapper.is_soft_delim (strip sent))).
Proof.
  intros Hb.
  pose proof (merged_tokens_text [] (strip sent)) as Htext. simpl in Htext.
  assert (Hne : Spec.remove_ws (strip sent) <> []).
  { intros Hnil. apply remove_ws_nil_blank in Hnil.
    rewrite (not_blank_strip_not_blank _ Hb) in Hnil. discriminate. }
  rewrite <- Htext in Hne. apply concat_map_nonempty in Hne.
  eapply List.Exists_impl; [|exact Hne].
  intros tok Htok Hs. apply Htok.
  now rewrite <- remove_ws_strip, Hs.
Qed.

Lemma chunk_sentence_nonempty chunks sent :
  Spec.blank sent = false ->
  Wrapper.chunk_sentence lower max_len language chunks sent <> [].
Proof.
  intros Hb. unfold Wrapper.chunk_sentence.
  destruct (len (strip sent) <=? max_len); [now destruct chunks|].
  destruct (pack_loop_buffer _ chunks [] 0 (List.Forall_nil _)
              (or_intror (merged_has_token sent Hb))) as [Htok Hne].
  destruct (fold_left _ _ _) as [[c1 b1] l1]. cbn [fst snd] in Htok, Hne.
  pose proof (flush_some b1 Hne Htok) as Hf.
  destruct (Wrapper.flush b1); [now destruct c1|easy].
Qed.

Lemma chunk_loop_nonempty sents chunks :
  sents <> [] -> Forall (fun b => Spec.blank b = false) sents ->
  fold_left (Wrapper.chunk_sentence lower max_len language) sents chunks <> [].
Proof.
  destruct sents as [|x xs _] using rev_ind; [easy|]. intros _ Hall.
  rewrite fold_left_app. cbn [fold_left].
  apply chunk_sentence_nonempty.
  apply Forall_app in Hall as [_ Hx]. now inversion Hx.
Qed.

Lemma words_nil_blank s : split_ws s = [] -> Spec.blank s = true.
Proof.
  intros Hw. apply remove_ws_nil_blank. now rewrite remove_ws_words, Hw.
Qed.

Lemma base_sentences_nonempty paragraph :
  Spec.blank paragraph = false ->
  Wrapper.base_sentences_of (Wrapper.mark_ellipses paragraph) <> [].
Proof.
  intros Hb Hbase.
  pose proof (base_sentences_words (Wrapper.mark_ellipses paragraph)) as Hw.
  rewrite Hbase, normalized_words in Hw. simpl in Hw. symmetry in Hw.
  unfold Spec.normalize_ellipses in Hw.
  rewrite !split_ws_replace in Hw by easy.
  apply map_eq_nil, map_eq_nil, map_eq_nil, words_nil_blank in Hw.
  congruence.
Qed.

Lemma blank_paragraph_no_chunk paragraph :
  Spec.blank paragraph = true ->
  Wrapper.split_into_sentences lower paragraph max_len language = [].
Proof.
  intros Hb. unfold Wrapper.split_into_sentences.
  destruct (is_empty paragraph); [reflexivity|].
  unfold Wrapper.mark_ellipses. rewrite (blank_strip_nil _ Hb). reflexivity.
Qed.

Lemma paragraph_some_chunk paragraph :
  Spec.blank paragraph = false ->
  Wrapper.split_into_sentences lower paragraph max_len language <> [].
Proof.
  intros Hb. unfold Wrapper.split_into_sentences.
  destruct paragraph as [|c r]; [discriminate|]. cbn [is_empty].
  apply chunk_loop_nonempty;
    [now apply base_sentences_nonempty|apply base_sentences_not_blank].
Qed.

(** X12. The segmenter returns no chunk exactly when the paragraph is
    empty or made of whitespace only. *)
Theorem split_into_sentences_empty_iff_blank (paragraph : str) :
  Wrapper.split_into_sentences lower paragraph max_len language = []
  <-> Spec.blank paragraph = true.
Proof.
  split.
  - intros Hnil. destruct (Spec.blank paragraph) eqn:Hb; [reflexivity|].
    now apply paragraph_some_chunk in Hb.
  - apply blank_paragraph_no_chunk.
Qed.

End SegmenterShape.

(** ** paragraph_to_audio: failures and empty results *)

Section PipelineEdges.

Context {F : PyFloat}.
Variable lower : str -> str.
Variable is_decimal : char -> bool.
Variable num2words_int : str -> str.
Variable num2words_float : str -> str.
Variable sample : Type.
Variable rms : list sample -> Z -> Z -> list float.
Variable getenv : string -> option str.
Variable DEFAULT_SAMPLE_RATE : Z.
Variable DEFAULT_OUTPUT_FILE_LENGTH : Z.
Variable inference : str -> str -> Wrapper.Params -> result (list sample).
Variable language : str.

Local Abbreviation normalized :=
  (Spec.normalized is_decimal num2words_int num2words_float).
Local Abbreviation call_of :=
  (fun item : nat * str =>
     Spec.expected_call lower is_decimal num2words_int num2words_float
       language (snd item)).
Local Abbreviation synth :=
  (Spec.synthesize_and_trim lower is_decimal num2words_int num2words_float
     sample rms getenv DEFAULT_SAMPLE_RATE inference language).
Local Abbreviation process :=
  (Wrapper.process_sentences lower is_decimal num2words_int num2words_float
     sample rms getenv DEFAULT_SAMPLE_RATE DEFAULT_OUTPUT_FILE_LENGTH inference
     language).
Local Abbreviation paragraph_to_audio :=
  (fun paragraph =>
     Wrapper.paragraph_to_audio lower is_decimal num2words_int num2words_float
       sample rms getenv DEFAULT_SAMPLE_RATE DEFAULT_OUTPUT_FILE_LENGTH inference
       paragraph language).
Local Abbreviation chunks_of :=
  (fun paragraph =>
     Wrapper.enumerate (Wrapper.split_into_sentences lower paragraph 250 language)).

Lemma synth_steps s :
  synth s
  = (out_wav ← inference (normalized s) language
                 (Wrapper.calculate_inference_params lower (normalized s));
     Wrapper.fine_tune_audio sample rms getenv DEFAULT_SAMPLE_RATE out_wav
       {[ "sample_rate"%string := DEFAULT_SAMPLE_RATE ]}).
Proof.
  unfold Spec.synthesize_and_trim.
  destruct (inference _ _ _); simpl; [|reflexivity].
  now rewrite fine_tune_audio_default_rate.
Qed.

(** The loop stops at the first kept chunk whose synthesis or trimming
    fails, whatever the map and the calls it was started on. *)
Lemma process_first_failure items :
  forall audio_map calls pre item post e,
  Spec.kept items = pre ++ item :: post ->
  Forall (fun it => exists au, synth (snd it) = Ok au) pre ->
  synth (snd item) = Raise e ->
  process items audio_map calls
  = (calls ++ map call_of (pre ++ [item]), Raise e).
Proof.
  induction items as [|[index s] items IH];
    intros audio_map calls pre item post e Hkept Hpre Hfail.
  - now destruct pre.
  - cbn [Wrapper.process_sentences].
    unfold Spec.kept in Hkept. cbn [List.filter snd] in Hkept.
    fold (Spec.kept items) in Hkept.
    destruct (strip s) as [|c r] eqn:Hs.
    + cbn [is_empty negb] in Hkept |- *. now apply (IH _ _ pre item post).
    + cbn [is_empty negb] in Hkept |- *. rewrite <- Hs.
      change (Wrapper.normalize_text is_decimal num2words_int num2words_float
                (strip s)) with (normalized s).
      pose proof (synth_steps s) as Hsynth.
      destruct pre as [|p pre].
      * injection Hkept as <- Hpost. cbn [snd] in Hfail.
        rewrite Hsynth in Hfail.
        destruct (inference (normalized s) language _) as [wav|e'];
          simpl in Hfail.
        -- rewrite Hfail. reflexivity.
        -- injection Hfail as ->. reflexivity.
      * injection Hkept as <- Hrest.
        inversion Hpre as [|? ? [au Hau] Hpre']; subst. cbn [snd] in Hau.
        rewrite Hsynth in Hau.
        destruct (inference (normalized s) language _) as [wav|e'];
          simpl in Hau; [|discriminate].
        rewrite Hau.
        rewrite (IH _ _ pre item post e Hrest Hpre' Hfail).
        cbn [app map]. now rewrite <- app_assoc.
Qed.

(** X13. The first chunk whose synthesis or trimming fails ends the
    pipeline: the engine has been called for the chunks up to that one and
    for no later one, the exception is that of the failing chunk, and no map
    is returned. *)
Theorem paragraph_to_audio_first_failure (paragraph : str)
  (pre : list (nat * str)) (item : nat * str) (post : list (nat * str))
  (e : exn) :
  chunks_of paragraph = pre ++ item :: post ->
  Forall (fun it => exists au, synth (snd it) = Ok au) pre ->
  synth (snd item) = Raise e ->
  paragraph_to_audio paragraph = (map call_of (pre ++ [item]), Raise e).
Proof.
  intros Hchunks Hpre Hfail. unfold Wrapper.paragraph_to_audio.
  apply (process_first_failure _ [] [] pre item post e); [|exact Hpre|exact Hfail].
  now rewrite segmenter_chunks_kept.
Qed.

(** X14. A chunk for which the engine answers a silent wave (no frame
    above the threshold 0.01) makes the whole paragraph fail with the
    [IndexError] of the trimmer, the chunks before it having been
    synthesized and the later ones not. *)
Theorem paragraph_to_audio_silent_chunk (paragraph : str)
  (pre : list (nat * str)) (item : nat * str) (post : list (nat * str))
  (wav : list sample) (keep_silence : float) :
  chunks_of paragraph = pre ++ item :: post ->
  Forall (fun it => exists au, synth (snd it) = Ok au) pre ->
  inference (normalized (snd item)) language
    (Wrapper.calculate_inference_params lower (normalized (snd item))) = Ok wav ->
  float_of_str (default (u "0.2") (getenv "XTTS_KEEP_SILENCE_DURATION"))
  = Ok keep_silence ->
  Forall (fun en => float_gtb en (float_lit 0.01) = false) (rms wav 2048 512) ->
  paragraph_to_audio paragraph = (map call_of (pre ++ [item]), Raise IndexError).
Proof.
  intros Hchunks Hpre Hinf Hkeep Hsilent. unfold Wrapper.paragraph_to_audio.
  apply (process_first_failure _ [] [] pre item post IndexError);
    [now rewrite segmenter_chunks_kept|exact Hpre|].
  unfold Spec.synthesize_and_trim. rewrite Hinf. simpl. rewrite Hkeep. simpl.
  unfold Wrapper.trim_silence.
  now rewrite (proj2 (silent_where _ _) Hsilent).
Qed.

(** X15. A blank paragraph gives the empty map without any call of the
    engine; on any other paragraph the pipeline, when it returns, has
    called the engine and returns a map that is not empty. *)
Theorem paragraph_to_audio_empty_iff_blank (paragraph : str) :
  (Spec.blank paragraph = true -> paragraph_to_audio paragraph = ([], Ok []))
  /\ (Spec.blank paragraph = false ->
      forall calls audio_map,
        paragraph_to_audio paragraph = (calls, Ok audio_map) ->
        calls <> [] /\ audio_map <> []).
Proof.
  unfold Wrapper.paragraph_to_audio. split.
  - intros Hb. now rewrite (blank_paragraph_no_chunk lower 250 language _ Hb).
  - intros Hb calls audio_map Hrun.
    pose proof (paragraph_some_chunk lower 250 language _ Hb) as Hne.
    pose proof (segmenter_chunks_kept lower language paragraph 250) as Hkept.
    unfold Wrapper.enumerate in *.
    apply process_from in Hrun.
    2:{ intros k Hk. simpl in Hk. now apply elem_of_nil in Hk. }
    destruct Hrun as (_ & Hres & _).
    destruct (Hres audio_map eq_refl) as (Hcalls & audios & Hf2 & Ham).
    rewrite Hkept in Hcalls, Hf2, Ham. simpl in Hcalls, Ham.
    destruct (Wrapper.split_into_sentences lower paragraph 250 language)
      as [|chunk chunks]; [easy|].
    cbn [length seq combine] in Hcalls, Hf2, Ham.
    inversion Hf2; subst. split; discriminate.
Qed.

End PipelineEdges.

(** Three sentences, the engine failing on the second, and answering a
    silent wave for the second. *)
Lemma paragraph_to_audio_first_failure_witness :
  exists calls,
    Wrapper.paragraph_to_audio (F := Examples.QFloat) Examples.lower_ascii
      Examples.ascii_digit Examples.one_word Examples.one_word Z
      Examples.toy_rms Examples.no_env 10 8
      (fun text _ _ =>
         if decide (text = u "b.") then Raise EngineError
         else Ok [4; 3; 5; 0; 0; 0])
      (u "a. b. c.") (u "vi")
    = (calls, Raise EngineError)
    /\ map Wrapper.call_text calls = [u "a."; u "b."].
Proof.
  eexists. split.
  - apply (paragraph_to_audio_first_failure (F := Examples.QFloat)
             Examples.lower_ascii Examples.ascii_digit Examples.one_word
             Examples.one_word Z Examples.toy_rms Examples.no_env 10 8
             (fun text _ _ =>
                if decide (text = u "b.") then Raise EngineError
                else Ok [4; 3; 5; 0; 0; 0])
             (u "vi") (u "a. b. c.")
             [(0%nat, u "a.")] (1%nat, u "b.") [(2%nat, u "c.")] EngineError).
    + vm_compute. reflexivity.
    + constructor; [|constructor]. eexists. vm_compute. reflexivity.
    + vm_compute. reflexivity.
  - vm_compute. reflexivity.
Defined.

Lemma paragraph_to_audio_silent_chunk_witness :
  exists calls,
    Wrapper.paragraph_to_audio (F := Examples.QFloat) Examples.lower_ascii
      Examples.ascii_digit Examples.one_word Examples.one_word Z
      Examples.toy_rms Examples.no_env 10 8
      (fun text _ _ =>
         if decide (text = u "b.") then Ok [0; 0; 0]
         else Ok [4; 3; 5; 0; 0; 0])
      (u "a. b. c.") (u "vi")
    = (calls, Raise IndexError)
    /\ map Wrapper.call_text calls = [u "a."; u "b."].
Proof.
  eexists. split.
  - apply (paragraph_to_audio_silent_chunk (F := Examples.QFloat)
             Examples.lower_ascii Examples.ascii_digit Examples.one_word
             Examples.one_word Z Examples.toy_rms Examples.no_env 10 8
             (fun text _ _ =>
                if decide (text = u "b.") then Ok [0; 0; 0]
                else Ok [4; 3; 5; 0; 0; 0])
             (u "vi") (u "a. b. c.")
             [(0%nat, u "a.")] (1%nat, u "b.") [(2%nat, u "c.")]
             [0; 0; 0] 0.2%Q).
    + vm_compute. reflexivity.
    + constructor; [|constructor]. eexists. vm_compute. reflexivity.
    + vm_compute. reflexivity.
    + vm_compute. reflexivity.
    + vm_compute. repeat constructor.
  - vm_compute. reflexivity.
Defined.

Lemma paragraph_to_audio_empty_iff_blank_witness :
  Wrapper.paragraph_to_audio (F := Examples.QFloat) Examples.lower_ascii
    Examples.ascii_digit Examples.one_word Examples.one_word Z
    Examples.toy_rms Examples.no_env 10 8 Examples.fixed_wave
    (u "   ") (u "vi") = ([], Ok [])
  /\ forall calls audio_map,
       Wrapper.paragraph_to_audio (F := Examples.QFloat) Examples.lower_ascii
         Examples.ascii_digit Examples.one_word Examples.one_word Z
         Examples.toy_rms Examples.no_env 10 8 Examples.fixed_wave
         (u "Xin chào.") (u "vi") = (calls, Ok audio_map) ->
       calls <> [] /\ audio_map <> [].
Proof.
  split.
  - apply (proj1 (paragraph_to_audio_empty_iff_blank (F := Examples.QFloat)
                    Examples.lower_ascii Examples.ascii_digit Examples.one_word
                    Examples.one_word Z Examples.toy_rms Examples.no_env 10 8
                    Examples.fixed_wave (u "vi") (u "   "))).
    reflexivity.
  - apply (proj2 (paragraph_to_audio_empty_iff_blank (F := Examples.QFloat)
                    Examples.lower_ascii Examples.ascii_digit Examples.one_word
                    Examples.one_word Z Examples.toy_rms Examples.no_env 10 8
                    Examples.fixed_wave (u "vi") (u "Xin chào."))).
    reflexivity.
Defined.

(** ** calculate_inference_params: the values it can return *)

Section ParamsRange.

Context {F : PyFloat}.
Variable lower : str -> str.

Local Open Scope Q_scope.

(** X16. Whatever the text, the lower-casing and the float arithmetic, the
    parameters stay in fixed ranges: the speed between 0.95 and 1.04, the
    length penalty between 0.75 and 1.1, the temperature between 0.7 and
    0.8, the repetition penalty between 1.5 and 4.0; and text splitting by
    the engine is always switched off. *)
Theorem calculate_inference_params_ranges (text : str) :
  let params := Wrapper.calculate_inference_params lower text in
  (0.95 <= Wrapper.speed params <= 1.04)
  /\ (0.75 <= Wrapper.length_penalty params <= 1.1)
  /\ (0.7 <= Wrapper.temperature params <= 0.8)
  /\ (1.5 <= Wrapper.repetition_penalty params <= 4.0)
  /\ Wrapper.enable_text_splitting params = false.
Proof.
  cbv zeta. unfold Wrapper.calculate_inference_params.
  repeat match goal with
         | |- context [if ?b then _ else _] => destruct b
         end;
    cbn [Wrapper.speed Wrapper.length_penalty Wrapper.temperature
         Wrapper.repetition_penalty Wrapper.enable_text_splitting];
    repeat split; try reflexivity; apply Qle_bool_iff; reflexivity.
Qed.

End ParamsRange.
